(** * pydownloader: filename resolution, stream copying and orchestration

    A shallow embedding of [src/pydownloader/downloader.py].  The program
    talks to four things outside itself: the file system, the HTTP
    transport ([requests]), the progress sink ([rich.progress.Progress])
    and the process-wide [done_event] set by SIGINT.  They are modelled as
    one explicit [World] that every function threads through, together
    with a read-only [Env] holding what the embedding cannot look inside
    (the library parsers and tables, the network, the random source and
    the moment at which SIGINT arrives).  Python exceptions are the
    [Raise] results of a state-and-error monad whose state survives a
    raise, exactly as effects performed before a Python exception do. *)

From Stdlib Require Import ZArith Lia Ascii Strings.Byte.
From stdpp Require Import base option list strings gmap pretty.

Local Open Scope string_scope.

(** ** Python values used by the program *)

Module Py.

(** [if s:] on a string: the empty string is falsy. *)
Definition truthy (s : string) : bool :=
  match s with EmptyString => false | _ => true end.

(** [if x:] on an optional string: [None] and the empty string are falsy. *)
Definition truthy_opt (o : option string) : bool :=
  match o with Some s => truthy s | None => false end.

(** [s.split(c)[0]]: the text before the first occurrence of [c]. *)
Fixpoint split_first (c : ascii) (s : string) : string :=
  match s with
  | EmptyString => EmptyString
  | String a s' => if decide (a = c) then EmptyString else String a (split_first c s')
  end.

(** [s.split(c)[-1]]: the text after the last occurrence of [c].  The
    accumulator holds the segment read so far, in reverse. *)
Fixpoint split_last_go (c : ascii) (s : string) (acc : string) : string :=
  match s with
  | EmptyString => String.rev acc
  | String a s' =>
      if decide (a = c) then split_last_go c s' EmptyString
      else split_last_go c s' (String a acc)
  end.

Definition split_last (c : ascii) (s : string) : string :=
  split_last_go c s EmptyString.

(** [dict(pairs)[key]]: building a dict from pairs keeps the last binding
    of a repeated key; a missing key is [None] here and a [KeyError] at
    the call site. *)
Fixpoint dict_get (key : string) (pairs : list (string * string)) : option string :=
  match pairs with
  | [] => None
  | (k, v) :: rest =>
      match dict_get key rest with
      | Some v' => Some v'
      | None => if decide (k = key) then Some v else None
      end
  end.

(** [string.ascii_lowercase] *)
Definition ascii_lowercase : list ascii :=
  String.list_ascii_of_string "abcdefghijklmnopqrstuvwxyz".

(** [f"{i}"] for a non-negative integer. *)
Definition str_of_nat (i : nat) : string := pretty i.

End Py.

(** ** Exceptions *)

Inductive exn : Type :=
| ConnectionError            (* requests.exceptions.ConnectionError *)
| KeyError (key : string)
| AttributeError             (* 'NoneType' object has no attribute 'split' *)
| ValueError                 (* int() on a non-numeric Content-Length *)
| FileNotFoundError
| NotADirectoryError
| IsADirectoryError
| SystemExit                 (* argparse: parser.error *)
| DestinationDoesNotExist
| DestinationIsNotDirectory.

Global Instance exn_eq_dec : EqDecision exn.
Proof. solve_decision. Defined.

(** ** The file system *)

Inductive node : Type :=
| File (data : list byte)
| Dir.

(** Paths are the strings handed to the operating system, relative to the
    working directory of the process and in [pathlib]'s normal form (no
    empty, [.] or [..] components).  The working directory itself is [.]
    and always exists. *)
Abbreviation filesystem := (gmap string node).

Module Fs.

Definition lookup_path (fs : filesystem) (p : string) : option node :=
  if decide (p = ".") then Some Dir else fs !! p.

(** [os.path.isfile(p)] *)
Definition isfile (fs : filesystem) (p : string) : bool :=
  match lookup_path fs p with Some (File _) => true | _ => false end.

(** [Path(p).exists()] *)
Definition path_exists (fs : filesystem) (p : string) : bool :=
  match lookup_path fs p with Some _ => true | None => false end.

(** [Path(p).is_dir()] *)
Definition is_dir (fs : filesystem) (p : string) : bool :=
  match lookup_path fs p with Some Dir => true | _ => false end.

(** The directory part of a path: everything before the last [/], or the
    working directory when there is none.  [acc] is the part already
    known to be followed by a [/]; [cur] the components read since. *)
Fixpoint parent_go (s : string) (acc : option string) (cur : string) : option string :=
  match s with
  | EmptyString => acc
  | String a s' =>
      if decide (a = "/"%char)
      then parent_go s' (Some (String.rev cur)) (String a cur)
      else parent_go s' acc (String a cur)
  end.

Definition parent (p : string) : string :=
  match parent_go p None EmptyString with
  | Some EmptyString => "/"
  | Some d => d
  | None => "."
  end.

(** [Path(dir).joinpath(name)]: an absolute [name] replaces [dir], and the
    working directory contributes no component. *)
Definition joinpath (dir name : string) : string :=
  match name with
  | String "/" _ => name
  | _ => if decide (dir = ".") then name else dir ++ "/" ++ name
  end.

End Fs.

(** ** The HTTP transport *)

(** What [requests.get(url, stream=True)] hands back, as far as the program
    looks at it: the three headers it reads and the chunks that
    [iter_content] yields.  A header that is not sent is [None]. *)
Record Response : Type := mkResponse {
  content_disposition : option string;
  content_length : option string;
  content_type : option string;
  iter_content : list (list byte)
}.

(** ** The progress sink *)

(** One entry of [progress._tasks]. *)
Record Task : Type := mkTask {
  task_filename : option string;   (* task.fields["filename"] *)
  task_total : option Z;
  task_completed : Z;
  task_started : bool
}.

(** ** What is observed of a run *)

Inductive event : Type :=
| EGet (url : string)                       (* requests.get was called *)
| EOpen (path : string)                     (* a file was opened with mode wb *)
| EWrite (path : string) (at_time : nat).   (* a chunk was written *)

(** ** The world *)

Record World : Type := mkWorld {
  fs : gmap string node;
  tasks : gmap nat Task;        (* progress._tasks *)
  next_task : nat;              (* progress._task_index *)
  console : list string;        (* lines given to progress.console.log *)
  rng : nat;                    (* how many random draws were consumed *)
  now : nat;                    (* chunk writes and flag checks done so far *)
  trace : list event
}.

Definition set_fs (f : gmap string node → gmap string node) (w : World) : World :=
  mkWorld (f (fs w)) (tasks w) (next_task w) (console w) (rng w) (now w) (trace w).
Definition set_tasks (f : gmap nat Task → gmap nat Task) (w : World) : World :=
  mkWorld (fs w) (f (tasks w)) (next_task w) (console w) (rng w) (now w) (trace w).
Definition set_next_task (n : nat) (w : World) : World :=
  mkWorld (fs w) (tasks w) n (console w) (rng w) (now w) (trace w).
Definition set_console (f : list string → list string) (w : World) : World :=
  mkWorld (fs w) (tasks w) (next_task w) (f (console w)) (rng w) (now w) (trace w).
Definition set_rng (n : nat) (w : World) : World :=
  mkWorld (fs w) (tasks w) (next_task w) (console w) n (now w) (trace w).
Definition set_now (n : nat) (w : World) : World :=
  mkWorld (fs w) (tasks w) (next_task w) (console w) (rng w) n (trace w).
Definition emit (e : event) (w : World) : World :=
  mkWorld (fs w) (tasks w) (next_task w) (console w) (rng w) (now w) ((trace w ++ [e])%list).

(** ** The environment *)

(** [sigint] is the value of [now] from which [done_event] is set: SIGINT
    may arrive before the run ([Some 0]), between any two chunk writes or
    flag checks, or never ([None]).  The event is never cleared, so one
    number describes it. *)
Record Env : Type := mkEnv {
  http_get : string → option Response;               (* None: ConnectionError *)
  value_parser : string → list (string * string);    (* ContentDispositionHeader.value_parser(v).params *)
  guess_extension : string → option string;          (* mimetypes.guess_extension *)
  urlparse_path : string → string;                   (* urlparse(url).path *)
  py_int : string → option Z;                        (* int(s); None: ValueError *)
  random_draw : nat → nat;                           (* the n-th draw of the random source *)
  sigint : option nat
}.

(** ** Computations that change the world and may raise *)

Inductive result (A : Type) : Type :=
| Ok (a : A)
| Raise (e : exn).
Arguments Ok {A} a.
Arguments Raise {A} e.

Definition M (A : Type) : Type := World → World * result A.

Definition ret {A} (a : A) : M A := λ w, (w, Ok a).
Definition raise {A} (e : exn) : M A := λ w, (w, Raise e).
Definition bind {A B} (m : M A) (k : A → M B) : M B :=
  λ w, match m w with
       | (w', Ok a) => k a w'
       | (w', Raise e) => (w', Raise e)
       end.
Definition modify (f : World → World) : M unit := λ w, (f w, Ok tt).
Definition gets {A} (f : World → A) : M A := λ w, (w, Ok (f w)).

(** [try: m except e: h; raise]-style handlers: [h] runs when [m] raised
    the exception [e], and decides what happens next. *)
Definition try_except {A} (m : M A) (e : exn) (h : M A) : M A :=
  λ w, match m w with
       | (w', Raise e') => if decide (e' = e) then h w' else (w', Raise e')
       | r => r
       end.

Declare Scope py_scope.
Delimit Scope py_scope with py.
Notation "x <- m ;; k" := (bind m (λ x, k))
  (at level 100, m at next level, right associativity) : py_scope.
Notation "m ;;; k" := (bind m (λ _, k))
  (at level 100, right associativity) : py_scope.
Local Open Scope py_scope.

(** *** Operations of the progress sink *)

Module Progress.

(** [progress.add_task("download", start=False, filename=name)] *)
Definition add_task (name : string) : M nat :=
  λ w, let tid := next_task w in
       (set_next_task (S tid)
          (set_tasks (insert tid (mkTask (Some name) (Some 100%Z) 0%Z false)) w),
        Ok tid).

Definition update_filename (tid : nat) (name : string) : M unit :=
  modify (set_tasks (alter (λ t, mkTask (Some name) (task_total t)
                                   (task_completed t) (task_started t)) tid)).

(** [progress.update(tid, total=n)]; a [None] total changes nothing. *)
Definition update_total (tid : nat) (total : option Z) : M unit :=
  match total with
  | None => ret tt
  | Some n =>
      modify (set_tasks (alter (λ t, mkTask (task_filename t) (Some n)
                                       (task_completed t) (task_started t)) tid))
  end.

Definition update_advance (tid : nat) (n : Z) : M unit :=
  modify (set_tasks (alter (λ t, mkTask (task_filename t) (task_total t)
                                   (task_completed t + n) (task_started t)) tid)).

Definition start_task (tid : nat) : M unit :=
  modify (set_tasks (alter (λ t, mkTask (task_filename t) (task_total t)
                                   (task_completed t) true) tid)).

Definition remove_task (tid : nat) : M unit :=
  modify (set_tasks (delete tid)).

Definition console_log (line : string) : M unit :=
  modify (set_console (λ c, (c ++ [line])%list)).

End Progress.

(** ** The program *)

(** [f"Downloaded {url} to '{output_file_path}'"] *)
Definition downloaded_line (url output_file_path : string) : string :=
  "Downloaded " ++ url ++ " to '" ++ output_file_path ++ "'".

(** [f"Failed to download '{url}': couldn't connect to server"] *)
Definition failed_line (url : string) : string :=
  "Failed to download '" ++ url ++ "': couldn't connect to server".

(** [copy_url] has two ways out that both return [None]: the [return]
    inside its loop, and its last line.  The embedding keeps which one was
    taken as the value returned, so that what holds on each can be said. *)
Inductive loop_exit : Type :=
| Exhausted    (* the for loop ran out of chunks *)
| Returned.    (* the [return] inside the loop was taken *)

Section Downloader.

Variable E : Env.

(** [random.choice(string.ascii_lowercase)] on the draw [d]. *)
Definition choice (d : nat) : ascii :=
  nth (d `mod` 26) Py.ascii_lowercase "a"%char.

Fixpoint random_letters (pos length : nat) : string :=
  match length with
  | 0 => EmptyString
  | S n => String (choice (random_draw E pos)) (random_letters (S pos) n)
  end.

Definition randomword (length : nat) : M string :=
  λ w, (set_rng (rng w + length) w, Ok (random_letters (rng w) length)).

(** The loop [for i in range(1, 1000)] of [find_next_filename], over the
    values [i] still to be tried. *)
Fixpoint first_free (files : gmap string node) (filename : string)
    (range : list nat) : option string :=
  match range with
  | [] => None
  | i :: rest =>
      let candidate := filename ++ "." ++ Py.str_of_nat i in
      if negb (Fs.isfile files candidate) then Some candidate
      else first_free files filename rest
  end.

Arguments first_free : simpl never.

Definition find_next_filename (filename : string) : M string :=
  files <- gets fs;;
  if negb (Fs.isfile files filename) then ret filename
  else match first_free files filename (seq 1 999) with
       | Some candidate => ret candidate
       | None => suffix <- randomword 16;; ret (filename ++ "." ++ suffix)
       end.

Definition directory_path (pathname : string) : M string :=
  files <- gets fs;;
  if negb (Fs.path_exists files pathname) then raise DestinationDoesNotExist
  else if negb (Fs.is_dir files pathname) then raise DestinationIsNotDirectory
  else ret pathname.

Definition filename_from_content_disposition (header_value : string) : M string :=
  match Py.dict_get "filename" (value_parser E header_value) with
  | Some name => ret name
  | None => raise (KeyError "filename")
  end.

(** [requests.get(url, ..., stream=True)]; of what it can raise, the
    refused connection is modelled. *)
Definition requests_get (url : string) : M Response :=
  modify (emit (EGet url));;;
  match http_get E url with
  | Some response => ret response
  | None => raise ConnectionError
  end.

(** [output_file_path.open("wb")]: creates the file or truncates it. *)
Definition open_wb (p : string) : M unit :=
  λ w, match Fs.lookup_path (fs w) p with
       | Some Dir => (w, Raise IsADirectoryError)
       | _ =>
           match Fs.lookup_path (fs w) (Fs.parent p) with
           | Some Dir => (emit (EOpen p) (set_fs (insert p (File [])) w), Ok tt)
           | Some (File _) => (w, Raise NotADirectoryError)
           | None => (w, Raise FileNotFoundError)
           end
       end.

Definition append_data (data : list byte) (n : node) : node :=
  match n with
  | File old => File (old ++ data)
  | Dir => Dir
  end.

(** [dest_file.write(data)] *)
Definition file_write (p : string) (data : list byte) : M unit :=
  λ w, (set_now (S (now w)) (emit (EWrite p (now w)) (set_fs (alter (append_data data) p) w)),
        Ok tt).

(** [done_event.is_set()] *)
Definition done_event_is_set : M bool :=
  λ w, (set_now (S (now w)) w,
        Ok (match sigint E with
            | Some t => bool_decide (t ≤ now w)%nat
            | None => false
            end)).

(** The body of [for data in response.iter_content(chunk_size=32767)],
    for a stream that yields all its chunks and a disk that takes them. *)
Fixpoint write_chunks (task_id : nat) (p : string) (chunks : list (list byte))
    : M loop_exit :=
  match chunks with
  | [] => ret Exhausted
  | data :: rest =>
      file_write p data;;;
      Progress.update_advance task_id (Z.of_nat (length data));;;
      stop <- done_event_is_set;;
      if stop : bool then ret Returned else write_chunks task_id p rest
  end.

(** Lines 131-135 of [copy_url]: the name given by the server, or else
    the one taken from the URL. *)
Definition name_from_headers (task_id : nat) (response : Response)
    (default_filename : option string) : M (option string) :=
  if Py.truthy_opt (content_disposition response) then
    filename <- filename_from_content_disposition
                  (default "" (content_disposition response));;
    Progress.update_filename task_id filename;;;
    ret (Some filename)
  else ret default_filename.

(** Lines 138-139: [int(content_length)] when the header is there and is
    not empty.  The code leaves an empty header as it is and hands it to
    the sink; the embedding takes it as no total. *)
Definition read_content_length (response : Response) : M (option Z) :=
  if Py.truthy_opt (content_length response) then
    match py_int E (default "" (content_length response)) with
    | Some n => ret (Some n)
    | None => raise ValueError
    end
  else ret None.

(** Lines 141-148: a missing or empty name is made up from the content
    type. *)
Definition name_from_content_type (response : Response)
    (filename : option string) : M string :=
  if negb (Py.truthy_opt filename) then
    match content_type response with
    | None => raise AttributeError
    | Some header =>
        match guess_extension E (Py.split_first ";" header) with
        | Some extension => find_next_filename ("index" ++ extension)
        | None => suffix <- randomword 12;; ret ("index.bin." ++ suffix)
        end
    end
  else ret (default "" filename).

(** Lines 150-161: open the destination and copy the stream into it. *)
Definition save_response (task_id : nat) (url : string) (path : string)
    (response : Response) (content_length : option Z) (filename : string)
    : M loop_exit :=
  let output_file_path := Fs.joinpath path filename in
  Progress.update_total task_id content_length;;;
  open_wb output_file_path;;;
  Progress.start_task task_id;;;
  exit <- write_chunks task_id output_file_path (iter_content response);;
  match exit with
  | Returned => ret Returned
  | Exhausted =>
      Progress.remove_task task_id;;;
      Progress.console_log (downloaded_line url output_file_path);;;
      ret Exhausted
  end.

(** Lines 131-161: what [copy_url] does once it has a response. *)
Definition copy_response (task_id : nat) (url : string) (path : string)
    (default_filename : option string) (response : Response) : M loop_exit :=
  filename <- name_from_headers task_id response default_filename;;
  content_length <- read_content_length response;;
  filename <- name_from_content_type response filename;;
  save_response task_id url path response content_length filename.

Definition copy_url (task_id : nat) (url : string) (path : string)
    (default_filename : option string) : M loop_exit :=
  response <- try_except (requests_get url) ConnectionError
                (Progress.remove_task task_id;;; raise ConnectionError);;
  copy_response task_id url path default_filename response.

(** Filename resolution on its own: the two naming steps of [copy_url]
    in their order. *)
Definition resolve_filename (task_id : nat) (response : Response)
    (default_filename : option string) : M string :=
  filename <- name_from_headers task_id response default_filename;;
  name_from_content_type response filename.

(** *** The orchestrator *)

(** One submitted job: the arguments of [pool.submit(copy_url, ...)]. *)
Record Job : Type := mkJob {
  job_task : nat;
  job_url : string;
  job_default : string
}.

(** One future: the job and how its call of [copy_url] ended. *)
Record Future : Type := mkFuture {
  future_job : Job;
  future_result : result loop_exit
}.

(** The first loop of [download]: a task in the sink and a job in the
    pool for every URL.  [urlparse] is taken to accept every URL. *)
Fixpoint submit_all (urls : list string) : M (list Job) :=
  match urls with
  | [] => ret []
  | url :: rest =>
      let default_filename := Py.split_last "/" (urlparse_path E url) in
      task_id <- Progress.add_task default_filename;;
      jobs <- submit_all rest;;
      ret (mkJob task_id url default_filename :: jobs)
  end.

(** The single worker of [ThreadPoolExecutor(max_workers=1)]: it takes
    the jobs in the order of their submission and runs each to its end;
    what a job raises is kept in its future and does not stop the
    worker. *)
Fixpoint run_pool (dest_dir : string) (jobs : list Job) : M (list Future) :=
  match jobs with
  | [] => ret []
  | job :: rest =>
      outcome <- (λ w, let '(w', r) :=
                     copy_url (job_task job) (job_url job) dest_dir
                       (Some (job_default job)) w in
                   (w', Ok r));;
      futures <- run_pool dest_dir rest;;
      ret (mkFuture job outcome :: futures)
  end.

(** The second loop of [download], over the futures as they completed. *)
Fixpoint collect (futures : list Future) : M unit :=
  match futures with
  | [] => ret tt
  | future :: rest =>
      match future_result future with
      | Ok _ => collect rest
      | Raise ConnectionError =>
          Progress.console_log (failed_line (job_url (future_job future)));;;
          collect rest
      | Raise e => raise e
      end
  end.

(** [download]: the schedule modelled is the one in which the main thread
    has submitted every job before the worker runs the first, and reads
    the futures once the worker is done, in the order of their
    submission.  Every job touches only its own entry of the sink, and the
    pool waits for all jobs on exit; other schedules differ in the order
    of the console lines and, when several copies raised, in which of
    their exceptions is raised again. *)
Definition download (urls : list string) (dest_dir : option string) : M unit :=
  let dest_dir := default "." dest_dir in
  jobs <- submit_all urls;;
  futures <- run_pool dest_dir jobs;;
  collect futures.

(** [main]: [argparse] converts the value of [--dest], or its default
    ["."], with [directory_path] and lets what that raises through; it
    then insists on at least one URL. *)
Definition main (dest : option string) (urls : list string) : M unit :=
  dest_dir <- directory_path (default "." dest);;
  match urls with
  | [] => raise SystemExit
  | _ => download urls (Some dest_dir)
  end.

End Downloader.

(** ** A concrete environment

    Small stand-ins for the libraries, used to run the program on concrete
    inputs.  The theorems below hold for every environment; only the
    closed examples use this one. *)

Module Sample.

(** [s.split(c)] *)
Fixpoint split_go (c : ascii) (s : string) (cur : string) : list string :=
  match s with
  | EmptyString => [String.rev cur]
  | String a s' =>
      if decide (a = c) then String.rev cur :: split_go c s' EmptyString
      else split_go c s' (String a cur)
  end.
Definition split (c : ascii) (s : string) : list string := split_go c s EmptyString.

Fixpoint lstrip (s : string) : string :=
  match s with
  | String " " s' => lstrip s'
  | _ => s
  end.
Definition strip (s : string) : string :=
  String.rev (lstrip (String.rev (lstrip s))).

Definition quote : ascii := "034"%char.

Definition unquote (s : string) : string :=
  match s with
  | String a s' =>
      if decide (a = quote) then
        match String.rev s' with
        | String b r => if decide (b = quote) then String.rev r else s
        | EmptyString => s
        end
      else s
  | EmptyString => s
  end.

(** The text after the first [c], when there is one. *)
Fixpoint after_first (c : ascii) (s : string) : option string :=
  match s with
  | EmptyString => None
  | String a s' => if decide (a = c) then Some s' else after_first c s'
  end.

(** The parameters of a header value [type; name=value; name="value"]. *)
Definition params (header_value : string) : list (string * string) :=
  omap (λ part,
          match after_first "=" part with
          | Some v => Some (strip (Py.split_first "=" part), unquote (strip v))
          | None => None
          end)
       (tail (split ";" header_value)).

Definition extension (mime : string) : option string :=
  if decide (mime = "text/plain") then Some ".txt"
  else if decide (mime = "text/html") then Some ".html"
  else if decide (mime = "text/csv") then Some ".csv"
  else if decide (mime = "application/pdf") then Some ".pdf"
  else if decide (mime = "application/json") then Some ".json"
  else if decide (mime = "image/png") then Some ".png"
  else None.

Fixpoint drop_scheme (s : string) : string :=
  match s with
  | String ":" (String "/" (String "/" rest)) => rest
  | String _ rest => drop_scheme rest
  | EmptyString => EmptyString
  end.

Fixpoint drop_netloc (s : string) : string :=
  match s with
  | EmptyString => EmptyString
  | String a rest => if decide (a = "/"%char) then s else drop_netloc rest
  end.

Definition url_path (url : string) : string :=
  Py.split_first "?" (Py.split_first "#" (drop_netloc (drop_scheme url))).

Definition digit (a : ascii) : option Z :=
  let n := nat_of_ascii a in
  if bool_decide (48 ≤ n ≤ 57)%nat then Some (Z.of_nat (n - 48)) else None.

Fixpoint decimal_go (s : string) (acc : Z) : option Z :=
  match s with
  | EmptyString => Some acc
  | String a s' =>
      match digit a with
      | Some d => decimal_go s' (10 * acc + d)%Z
      | None => None
      end
  end.

Definition decimal (s : string) : option Z :=
  match s with
  | EmptyString => None
  | _ => decimal_go s 0%Z
  end.

(** A small network: what each URL answers; any other URL refuses the
    connection. *)
Definition net (url : string) : option Response :=
  if decide (url = "http://example.com/a/b/data.csv") then
    Some (mkResponse None (Some "3") (Some "text/csv") [[x01; x02]; [x03]])
  else if decide (url = "http://example.com/") then
    Some (mkResponse None None (Some "text/plain; charset=utf-8") [[x68; x69]])
  else if decide (url = "http://example.com/report") then
    Some (mkResponse (Some "attachment; filename=report.pdf") None
            (Some "application/pdf") [[x25]])
  else if decide (url = "http://example.com/export") then
    Some (mkResponse (Some "attachment") None (Some "text/csv") [[x01]])
  else if decide (url = "http://example.com/untyped/") then
    Some (mkResponse None None None [[x01]])
  else if decide (url = "http://example.com/blob/") then
    Some (mkResponse None None (Some "application/x-unknown") [[x01]])
  else None.

(** The environment with the network [net], SIGINT at [sig] and the
    random source that draws 0, 1, 2, ... *)
Definition env_with (net : string → option Response) (sig : option nat) : Env :=
  mkEnv net params extension url_path decimal (λ n, n) sig.

(** The same with the network above. *)
Definition env (sig : option nat) : Env := env_with net sig.

Definition world (files : gmap string node) : World :=
  mkWorld files ∅ 0 [] 0 0 [].

End Sample.

(** ** Notions used to state the properties *)

(** A run from [w] to [w'] overwrote nothing: every regular file of [w] is
    still there with the same content. *)
Definition preserves_files (w w' : World) : Prop :=
  ∀ p data, fs w !! p = Some (File data) → fs w' !! p = Some (File data).

Definition is_write (e : event) : bool :=
  match e with EWrite _ _ => true | _ => false end.

(** A chunk write that happened when [done_event] was already set, SIGINT
    having arrived at time [s]. *)
Definition is_late_write (s : nat) (e : event) : bool :=
  match e with EWrite _ t => bool_decide (s ≤ t)%nat | _ => false end.

(** The chunk writes of a trace, in their order. *)
Definition writes (tr : list event) : list event := filter is_write tr.

Definition chunk_writes (tr : list event) : nat := length (writes tr).
Definition late_writes (s : nat) (tr : list event) : nat :=
  length (filter (is_late_write s) (writes tr)).

(** The component [f] of the world is the same after as before. *)
Definition unchanged {B} (f : World → B) : relation World :=
  λ w w', f w' = f w.

(** Only the file at [p] may differ. *)
Definition fs_except (p : string) : relation World :=
  λ w w', ∀ q, q ≠ p → fs w' !! q = fs w !! q.

(** Only the task [tid] of the sink may differ. *)
Definition tasks_except (tid : nat) : relation World :=
  λ w w', ∀ t, t ≠ tid → tasks w' !! t = tasks w !! t.

(** The set of registered task handles. *)
Definition handles (w : World) : gset nat := dom (tasks w).

(** The trace and the console only grow. *)
Definition extends {B} (f : World → list B) : relation World :=
  λ w w', ∃ more, f w' = (f w ++ more)%list.

(** [m] keeps the relation [R] between the world it starts in and the one
    it leaves, whether it returns or raises. *)
Definition keeps {A} (R : relation World) (m : M A) : Prop :=
  ∀ w, R w (m w).1.

(** [m] raises nothing outside [P]. *)
Definition raises_within {A} (P : exn → Prop) (m : M A) : Prop :=
  ∀ w e, (m w).2 = Raise e → P e.

(** Two worlds that agree on what a copy depends on: the files, the
    random source and the clock. *)
Definition same_core (w1 w2 : World) : Prop :=
  fs w1 = fs w2 ∧ rng w1 = rng w2 ∧ now w1 = now w2.

(** [m1] and [m2] do the same to the core and end in the same way. *)
Definition alike {A} (m1 m2 : M A) : Prop :=
  ∀ w1 w2, same_core w1 w2 →
    same_core (m1 w1).1 (m2 w2).1 ∧ (m1 w1).2 = (m2 w2).2.

(** Lines 152-154: what precedes the loop in [save_response]. *)
Definition open_destination (tid : nat) (p : string) (total : option Z) : M unit :=
  Progress.update_total tid total;;; open_wb p;;; Progress.start_task tid.

(** Nothing that can be seen from outside happened: same files, same
    console, same registered handles, same chunk writes, same clock. *)
Definition calm : relation World :=
  λ w w', console w' = console w ∧ handles w' = handles w
          ∧ writes (trace w') = writes (trace w) ∧ now w' = now w
          ∧ fs w' = fs w.

(** The strict reading of cancellation: once [done_event] is set no chunk
    is written any more. *)
Definition no_write_once_set (E : Env) (w' : World) : Prop :=
  ∀ s, sigint E = Some s → late_writes s (trace w') = 0.

(** What [copy_url] can raise besides a refused connection. *)
Definition copy_errors : list exn :=
  [KeyError "filename"; ValueError; AttributeError;
   IsADirectoryError; NotADirectoryError; FileNotFoundError].

(** A response with its [Content-Disposition] header taken away. *)
Definition without_disposition (resp : Response) : Response :=
  mkResponse None (content_length resp) (content_type resp) (iter_content resp).

(** The reading of C3: a header that does not parse counts as absent. *)
Definition treated_as_absent (E : Env) (tid : nat) (resp : Response)
    (d : option string) (w : World) : Prop :=
  (resolve_filename E tid resp d w).2
  = (resolve_filename E tid (without_disposition resp) d w).2.

(** The reading of C8: resolving again, in the world the first resolution
    left, gives the same name. *)
Definition resolves_the_same (E : Env) (tid : nat) (resp : Response)
    (d : option string) (w : World) : Prop :=
  (resolve_filename E tid resp d (resolve_filename E tid resp d w).1).2
  = (resolve_filename E tid resp d w).2.

(** The worker leaves one future per job, in order, each holding how the
    job's [copy_url] ended in the world the previous jobs left. *)
Inductive pool_run (E : Env) (dest : string) : World → list Job → World → list Future → Prop :=
| pool_done w : pool_run E dest w [] w []
| pool_step w job rest w1 r w2 futures :
    copy_url E (job_task job) (job_url job) dest (Some (job_default job)) w = (w1, r) →
    pool_run E dest w1 rest w2 futures →
    pool_run E dest w (job :: rest) w2 (mkFuture job r :: futures).

(** *** Notions for the properties of the single steps and of a whole run *)

(** Only letters of [string.ascii_lowercase]. *)
Definition lowercase (s : string) : Prop :=
  Forall (λ a, a ∈ Py.ascii_lowercase) (String.list_ascii_of_string s).

(** The URLs requested in a trace, in their order. *)
Definition requests (tr : list event) : list string :=
  omap (λ e, match e with EGet url => Some url | _ => None end) tr.

(** The job that [download] submits for the [i]-th URL when the sink has
    handed out [first] handles before. *)
Definition job_of (E : Env) (first i : nat) (url : string) : Job :=
  mkJob (first + i) url (Py.split_last "/" (urlparse_path E url)).

(** A task as [add_task] registers it: not started, nothing completed,
    and the default total of 100. *)
Definition fresh_task (name : string) : Task :=
  mkTask (Some name) (Some 100%Z) 0%Z false.

(** No server answers the URL. *)
Definition refused (E : Env) (url : string) : bool :=
  match http_get E url with None => true | Some _ => false end.

(** A server answers the URL. *)
Definition answered (E : Env) (url : string) : bool := negb (refused E url).

(** A future that holds a refused connection. *)
Definition is_refusal (future : Future) : bool :=
  match future_result future with Raise ConnectionError => true | _ => false end.

(** A completion line of [copy_url] for [url]. *)
Definition is_download_line (url line : string) : Prop :=
  ∃ output_file_path, line = downloaded_line url output_file_path.

(** What [download] makes of the outcomes of the copies: the first one
    that is neither a result nor a refused connection is raised. *)
Fixpoint first_error (outcomes : list (result loop_exit)) : option exn :=
  match outcomes with
  | [] => None
  | Ok _ :: rest => first_error rest
  | Raise ConnectionError :: rest => first_error rest
  | Raise e :: _ => Some e
  end.


(** The task [tid] is registered after as before, as far along and with
    the same total. *)
Definition same_progress (tid : nat) : relation World :=
  λ w w', ∀ t, tasks w !! tid = Some t →
    ∃ t', tasks w' !! tid = Some t'
      ∧ task_completed t' = task_completed t ∧ task_started t' = task_started t
      ∧ task_total t' = task_total t.

(** A working directory in which [name] and [name.1] ... [name.999] are
    all taken. *)
Definition crowded (name : string) : gmap string node :=
  foldr (λ i files, <[name ++ "." ++ Py.str_of_nat i := File []]> files)
        {[ name := File [] ]} (seq 1 999).

(** A server that answers every request with [response]. *)
Definition always (response : Response) : string → option Response :=
  λ _, Some response.

(** * Properties *)

Local Open Scope nat_scope.

(** ** Reasoning about computations *)

Section Monad.

Context {A B : Type}.

Lemma bind_run (m : M A) (k : A → M B) w :
  bind m k w =
    match (m w).2 with
    | Ok a => k a (m w).1
    | Raise e => ((m w).1, Raise e)
    end.
Proof. unfold bind. by destruct (m w) as [w1 [a|e]]. Qed.

Lemma bind_ok (m : M A) (k : A → M B) w w1 a :
  m w = (w1, Ok a) → bind m k w = k a w1.
Proof. intros H. unfold bind. by rewrite H. Qed.

Lemma bind_raise (m : M A) (k : A → M B) w w1 e :
  m w = (w1, Raise e) → bind m k w = (w1, Raise e).
Proof. intros H. unfold bind. by rewrite H. Qed.

Lemma bind_inv (m : M A) (k : A → M B) w w' r :
  bind m k w = (w', r) →
  (∃ w1 a, m w = (w1, Ok a) ∧ k a w1 = (w', r))
  ∨ (∃ e, m w = (w', Raise e) ∧ r = Raise e).
Proof.
  unfold bind. destruct (m w) as [w1 [a|e]]; intros H.
  - left. eauto.
  - right. inversion H; subst. eauto.
Qed.

Lemma keeps_bind (R : relation World) `{!PreOrder R} (m : M A) (k : A → M B) :
  keeps R m → (∀ a, keeps R (k a)) → keeps R (bind m k).
Proof.
  intros Hm Hk w. specialize (Hm w). unfold bind.
  destruct (m w) as [w1 [a|e]]; simpl in *; [|done].
  etrans; [exact Hm | apply Hk].
Qed.

Lemma raises_within_bind (P : exn → Prop) (m : M A) (k : A → M B) :
  raises_within P m → (∀ a, raises_within P (k a)) → raises_within P (bind m k).
Proof.
  intros Hm Hk w e. specialize (Hm w). unfold bind.
  destruct (m w) as [w1 [a|e1]]; simpl in *.
  - apply Hk.
  - intros [= ->]. by apply Hm.
Qed.

Lemma alike_bind (m1 m2 : M A) (k1 k2 : A → M B) :
  alike m1 m2 → (∀ a, alike (k1 a) (k2 a)) → alike (bind m1 k1) (bind m2 k2).
Proof.
  intros Hm Hk w1 w2 Hw. destruct (Hm w1 w2 Hw) as [Hc Hr]. unfold bind.
  destruct (m1 w1) as [u1 [a1|e1]], (m2 w2) as [u2 [a2|e2]];
    simpl in *; simplify_eq; [by apply Hk | done].
Qed.

End Monad.

Section MonadBasics.

Context {A : Type}.

Lemma keeps_ret (R : relation World) `{!Reflexive R} (a : A) : keeps R (ret a).
Proof. intros w. simpl. reflexivity. Qed.

Lemma keeps_raise (R : relation World) `{!Reflexive R} e : keeps R (raise (A:=A) e).
Proof. intros w. simpl. reflexivity. Qed.

Lemma keeps_gets (R : relation World) `{!Reflexive R} (f : World → A) : keeps R (gets f).
Proof. intros w. simpl. reflexivity. Qed.

Lemma keeps_try_except (R : relation World) `{!PreOrder R} (m h : M A) e :
  keeps R m → keeps R h → keeps R (try_except m e h).
Proof.
  intros Hm Hh w. specialize (Hm w). unfold try_except.
  destruct (m w) as [w1 [a|e1]]; simpl in *; [done|].
  case_decide; [|done]. etrans; [exact Hm | apply Hh].
Qed.

Lemma raises_within_ret (P : exn → Prop) (a : A) : raises_within P (ret a).
Proof. by intros w e. Qed.

Lemma raises_within_raise (P : exn → Prop) e : P e → raises_within P (raise (A:=A) e).
Proof. intros He w e' [= <-]. done. Qed.

Lemma alike_ret (a : A) : alike (ret a) (ret a).
Proof. by intros w1 w2 Hw. Qed.

Lemma alike_raise e : alike (raise (A:=A) e) (raise e).
Proof. by intros w1 w2 Hw. Qed.

End MonadBasics.

Lemma keeps_modify (R : relation World) (f : World → World) :
  (∀ w, R w (f w)) → keeps R (modify f).
Proof. intros H w. apply H. Qed.

Global Instance unchanged_preorder {B} (f : World → B) : PreOrder (unchanged f).
Proof. split; [done|]. intros x y z Hxy Hyz. unfold unchanged in *. congruence. Qed.

Global Instance fs_except_preorder p : PreOrder (fs_except p).
Proof.
  split; [done|]. intros x y z Hxy Hyz q Hq.
  rewrite (Hyz q Hq). by apply Hxy.
Qed.

Global Instance tasks_except_preorder tid : PreOrder (tasks_except tid).
Proof.
  split; [done|]. intros x y z Hxy Hyz t Ht.
  rewrite (Hyz t Ht). by apply Hxy.
Qed.

Global Instance extends_preorder {B} (f : World → list B) : PreOrder (extends f).
Proof.
  split.
  - intros x. exists []. by rewrite app_nil_r.
  - intros x y z [l1 H1] [l2 H2]. exists (l1 ++ l2)%list.
    rewrite H2, H1. by rewrite <- app_assoc.
Qed.

Global Instance same_core_equiv : Equivalence same_core.
Proof.
  split.
  - done.
  - intros x y (?&?&?). done.
  - intros x y z (?&?&?) (?&?&?). unfold same_core. split_and!; congruence.
Qed.

(** ** Frames: what each step leaves alone *)

Lemma writes_app tr1 tr2 : writes (tr1 ++ tr2) = (writes tr1 ++ writes tr2)%list.
Proof. apply filter_app. Qed.

Lemma chunk_writes_write tr p t :
  chunk_writes (tr ++ [EWrite p t]) = S (chunk_writes tr).
Proof. unfold chunk_writes. rewrite writes_app, length_app. simpl. lia. Qed.

Lemma late_writes_write s tr p t :
  late_writes s (tr ++ [EWrite p t])
  = late_writes s tr + (if bool_decide (s ≤ t) then 1 else 0).
Proof.
  unfold late_writes. rewrite writes_app, filter_app, length_app.
  f_equal. unfold writes. rewrite filter_cons_True by done.
  rewrite filter_nil. rewrite filter_cons. simpl.
  case_bool_decide; by case_decide.
Qed.

Ltac unfold_world :=
  cbv [unchanged fs_except tasks_except extends handles compose
       set_fs set_tasks set_next_task set_console set_rng set_now emit
       fs tasks next_task console rng now trace].

(** One primitive step. *)
Ltac keeps_leaf :=
  let w := fresh "w" in
  intros w;
  cbv [keeps modify gets ret raise
       Progress.add_task Progress.update_filename Progress.update_total
       Progress.update_advance Progress.start_task Progress.remove_task
       Progress.console_log randomword open_wb file_write done_event_is_set];
  simpl; repeat case_match; simpl; destruct w; unfold_world;
  rewrite ?writes_app, ?app_nil_r;
  first
    [ done
    | by apply dom_alter_L
    | by (intros; apply lookup_alter_ne)
    | by (intros; apply lookup_insert_ne)
    | by (intros; apply lookup_delete_ne)
    | by eexists
    | by (exists []; rewrite app_nil_r) ].

(** A computation built from such steps. *)
Ltac keeps_go :=
  repeat first
    [ assumption
    | apply keeps_ret; apply _
    | apply keeps_raise; apply _
    | apply keeps_gets; apply _
    | apply keeps_bind; [apply _ | | intros ? ]
    | apply keeps_try_except; [apply _ | | ]
    | match goal with
      | |- keeps _ (match ?x with _ => _ end) => destruct x
      | |- keeps _ (if ?x then _ else _) => destruct x
      end
    | keeps_leaf ].

Section Frames.

Variable E : Env.

(** The naming steps of [copy_url] touch neither the files, nor the
    console, nor the clock; they write no chunk and register or remove no
    task. *)
Lemma naming_keeps {B} (f : World → B) tid resp d :
  (∀ w g, f (set_tasks g w) = f w) →
  (∀ w n, f (set_rng n w) = f w) →
  keeps (unchanged f) (name_from_headers E tid resp d)
  ∧ keeps (unchanged f) (read_content_length E resp)
  ∧ ∀ o, keeps (unchanged f) (name_from_content_type E resp o).
Proof.
  intros Ht Hr. split_and!; [| |intros o];
    unfold name_from_headers, filename_from_content_disposition,
      read_content_length, name_from_content_type, find_next_filename,
      Progress.update_filename, randomword;
    repeat first
      [ apply keeps_ret; apply _
      | apply keeps_raise; apply _
      | apply keeps_gets; apply _
      | apply keeps_bind; [apply _ | | intros ? ]
      | match goal with
        | |- keeps _ (match ?x with _ => _ end) => destruct x
        | |- keeps _ (if ?x then _ else _) => destruct x
        | |- keeps _ (modify _) => apply keeps_modify; intros w; apply Ht
        | |- keeps _ (λ _, _) => intros w; apply Hr
        end ].
Qed.

(** The copying loop. *)
Lemma write_chunks_keeps {B} (f : World → B) tid p chunks :
  (∀ w g, f (set_tasks g w) = f w) →
  (∀ w n, f (set_now n w) = f w) →
  (∀ w data, f (set_now (S (now w)) (emit (EWrite p (now w))
                  (set_fs (alter (append_data data) p) w))) = f w) →
  keeps (unchanged f) (write_chunks E tid p chunks).
Proof.
  intros Ht Hn Hw. induction chunks as [|data rest IH]; simpl.
  - apply keeps_ret; apply _.
  - apply keeps_bind; [apply _ | intros w; apply Hw | intros _].
    apply keeps_bind; [apply _ | apply keeps_modify; intros w; apply Ht | intros _].
    apply keeps_bind; [apply _ | intros w; apply Hn | intros stop].
    destruct stop; [apply keeps_ret; apply _ | exact IH].
Qed.

Lemma write_chunks_handles tid p chunks :
  keeps (unchanged handles) (write_chunks E tid p chunks).
Proof. induction chunks; simpl; keeps_go. Qed.

Lemma write_chunks_fs tid p chunks :
  keeps (fs_except p) (write_chunks E tid p chunks).
Proof. induction chunks; simpl; keeps_go. Qed.

Lemma write_chunks_tasks tid p chunks :
  keeps (tasks_except tid) (write_chunks E tid p chunks).
Proof. induction chunks; simpl; keeps_go. Qed.

Lemma write_chunks_trace tid p chunks :
  keeps (extends trace) (write_chunks E tid p chunks).
Proof. induction chunks; simpl; keeps_go. Qed.

(** The loop never raises. *)
Lemma write_chunks_returns tid p chunks w :
  ∃ exit, (write_chunks E tid p chunks w).2 = Ok exit.
Proof.
  revert w. induction chunks as [|data rest IH]; intros w; simpl; [by eexists|].
  unfold bind, file_write, Progress.update_advance, modify, done_event_is_set.
  simpl. case_match; [by eexists | apply IH].
Qed.

(** When the loop runs out of chunks it has written every one of them. *)
Lemma write_chunks_exhausted tid p chunks w :
  (write_chunks E tid p chunks w).2 = Ok Exhausted →
  chunk_writes (trace (write_chunks E tid p chunks w).1)
  = chunk_writes (trace w) + length chunks.
Proof.
  revert w. induction chunks as [|data rest IH]; intros w; simpl.
  - intros _. lia.
  - unfold bind, file_write, Progress.update_advance, modify, done_event_is_set.
    simpl. case_match; [done|]. intros Hex. rewrite (IH _ Hex).
    simpl. rewrite chunk_writes_write. lia.
Qed.

(** The [return] inside the loop is taken only with the flag set. *)
Lemma write_chunks_returned tid p chunks w :
  (write_chunks E tid p chunks w).2 = Ok Returned →
  ∃ s, sigint E = Some s ∧ s < now (write_chunks E tid p chunks w).1.
Proof.
  revert w. induction chunks as [|data rest IH]; intros w; simpl; [done|].
  unfold bind, file_write, Progress.update_advance, modify, done_event_is_set.
  simpl. destruct (sigint E) as [s|] eqn:Hs.
  - case_bool_decide.
    + intros _. exists s. simpl. split; [done|lia].
    + intros Hret. destruct (IH _ Hret) as (s'&Hs'&Hlt). eauto.
  - intros Hret. destruct (IH _ Hret) as (s'&Hs'&_). done.
Qed.

(** Once the flag is set the loop writes one more chunk at most. *)
Lemma write_chunks_late tid p chunks s w :
  sigint E = Some s →
  late_writes s (trace (write_chunks E tid p chunks w).1)
  ≤ late_writes s (trace w) + 1.
Proof.
  intros Hs. revert w. induction chunks as [|data rest IH]; intros w; simpl; [lia|].
  unfold bind, file_write, Progress.update_advance, modify, done_event_is_set.
  simpl. rewrite Hs. case_bool_decide as Hlate; simpl.
  - rewrite late_writes_write. case_bool_decide; lia.
  - etrans; [apply IH|]. simpl. rewrite late_writes_write.
    rewrite bool_decide_eq_false_2 by lia. lia.
Qed.

Lemma keeps_run {A} (R : relation World) (m : M A) w w' r :
  keeps R m → m w = (w', r) → R w w'.
Proof. intros Hk Hm. specialize (Hk w). by rewrite Hm in Hk. Qed.

Lemma open_destination_console tid p total :
  keeps (unchanged console) (open_destination tid p total).
Proof. unfold open_destination. keeps_go. Qed.

Lemma open_destination_handles tid p total :
  keeps (unchanged handles) (open_destination tid p total).
Proof. unfold open_destination. keeps_go. Qed.

Lemma open_destination_writes tid p total :
  keeps (unchanged (writes ∘ trace)) (open_destination tid p total).
Proof. unfold open_destination. keeps_go. Qed.

Lemma open_destination_now tid p total :
  keeps (unchanged now) (open_destination tid p total).
Proof. unfold open_destination. keeps_go. Qed.

Lemma save_response_eq tid url path resp total name w :
  save_response E tid url path resp total name w =
    (open_destination tid (Fs.joinpath path name) total;;;
     exit <- write_chunks E tid (Fs.joinpath path name) (iter_content resp);;
     match exit with
     | Returned => ret Returned
     | Exhausted =>
         Progress.remove_task tid;;;
         Progress.console_log (downloaded_line url (Fs.joinpath path name));;;
         ret Exhausted
     end) w.
Proof.
  unfold save_response, open_destination, bind.
  by repeat case_match; simplify_eq.
Qed.

(** How [save_response] ends, and what the sink and the console show then. *)
Lemma save_response_ends tid url path resp total name w w' r :
  save_response E tid url path resp total name w = (w', r) →
  match r with
  | Ok Exhausted =>
      tasks w' !! tid = None
      ∧ console w' = (console w ++ [downloaded_line url (Fs.joinpath path name)])%list
      ∧ chunk_writes (trace w') = chunk_writes (trace w) + length (iter_content resp)
  | Ok Returned =>
      console w' = console w ∧ handles w' = handles w
      ∧ ∃ s, sigint E = Some s ∧ s < now w'
  | Raise e =>
      console w' = console w ∧ handles w' = handles w
      ∧ e ∈ [IsADirectoryError; NotADirectoryError; FileNotFoundError]
  end.
Proof.
  set (p := Fs.joinpath path name).
  rewrite save_response_eq. fold p. intros Hrun.
  apply bind_inv in Hrun as [(w1 & [] & Hopen & Hrun)|(e & Hopen & ->)].
  - pose proof (keeps_run _ _ _ _ _ (open_destination_console _ _ _) Hopen) as Hc.
    pose proof (keeps_run _ _ _ _ _ (open_destination_handles _ _ _) Hopen) as Hh.
    pose proof (keeps_run _ _ _ _ _ (open_destination_writes _ _ _) Hopen) as Hw.
    unfold unchanged in Hc, Hh, Hw. simpl in Hw.
    apply bind_inv in Hrun as [(w2 & exit & Hloop & Hrun)|(e & Hloop & ->)].
    + pose proof (keeps_run _ _ _ _ _
                    (write_chunks_keeps console tid p (iter_content resp)
                       (λ _ _, eq_refl) (λ _ _, eq_refl) (λ _ _, eq_refl)) Hloop)
        as Hc2.
      pose proof (keeps_run _ _ _ _ _ (write_chunks_handles tid p _) Hloop) as Hh2.
      unfold unchanged in Hc2, Hh2.
      destruct exit.
      * cbv [bind Progress.remove_task Progress.console_log modify ret] in Hrun.
        simplify_eq. simpl. split_and!.
        -- apply lookup_delete_eq.
        -- by rewrite Hc2, Hc.
        -- pose proof (write_chunks_exhausted tid p (iter_content resp) w1) as Hn.
           rewrite Hloop in Hn. simpl in Hn. rewrite Hn by done.
           unfold chunk_writes. by rewrite Hw.
      * cbv [ret] in Hrun. simplify_eq. split_and!; [congruence..|].
        pose proof (write_chunks_returned tid p (iter_content resp) w1) as Hn.
        rewrite Hloop in Hn. by apply Hn.
    + pose proof (write_chunks_returns tid p (iter_content resp) w1) as [x Hx].
      rewrite Hloop in Hx. done.
  - pose proof (keeps_run _ _ _ _ _ (open_destination_console _ _ _) Hopen) as Hc.
    pose proof (keeps_run _ _ _ _ _ (open_destination_handles _ _ _) Hopen) as Hh.
    split_and!; [done..|].
    revert Hopen. unfold open_destination, bind, open_wb, Progress.update_total,
      Progress.start_task, modify, ret.
    clear Hc Hh. repeat case_match; intros; simplify_eq; set_solver.
Qed.

End Frames.

(** ** What a copy does to the sink, the console and the trace *)

Global Instance calm_preorder : PreOrder calm.
Proof.
  split; [done|]. intros x y z (?&?&?&?&?) (?&?&?&?&?).
  unfold calm. split_and!; congruence.
Qed.

Lemma keeps_calm {A} (m : M A) :
  keeps (unchanged console) m → keeps (unchanged handles) m →
  keeps (unchanged (writes ∘ trace)) m → keeps (unchanged now) m →
  keeps (unchanged fs) m → keeps calm m.
Proof. intros H1 H2 H3 H4 H5 w. by split_and!; [apply H1|apply H2|apply H3|apply H4|apply H5]. Qed.

Lemma bind_keeps_inv {A B} (R : relation World) (m : M A) (k : A → M B) w w' r :
  keeps R m → bind m k w = (w', r) →
  (∃ w1 a, R w w1 ∧ m w = (w1, Ok a) ∧ k a w1 = (w', r))
  ∨ (∃ e, R w w' ∧ r = Raise e ∧ (m w).2 = Raise e).
Proof.
  intros Hk Hrun. apply bind_inv in Hrun as [(w1 & a & Hm & Hrun)|(e & Hm & ->)].
  - left. exists w1, a. split_and!; [|done..]. by eapply keeps_run.
  - right. exists e. split_and!; [|done|by rewrite Hm]. by eapply keeps_run.
Qed.

(** A computation that raises nothing at all but what its parts raise. *)
Ltac raises_go :=
  repeat first
    [ assumption
    | apply raises_within_ret
    | apply raises_within_raise; set_solver
    | apply raises_within_bind; [ | intros ? ]
    | match goal with
      | |- raises_within _ (match ?x with _ => _ end) => destruct x
      | |- raises_within _ (if ?x then _ else _) => destruct x
      end
    | by (let w := fresh "w" in let e := fresh "e" in
          intros w e; cbv [modify gets randomword]; simpl) ].

Lemma writes_other tr e : is_write e = false → writes (tr ++ [e]) = writes tr.
Proof.
  intros He. unfold writes. rewrite filter_app, filter_cons_False, filter_nil.
  - apply app_nil_r.
  - rewrite He. simpl. tauto.
Qed.

Section CopyUrl.

Variable E : Env.

Lemma naming_handles tid resp d :
  keeps (unchanged handles) (name_from_headers E tid resp d)
  ∧ keeps (unchanged handles) (read_content_length E resp)
  ∧ ∀ o, keeps (unchanged handles) (name_from_content_type E resp o).
Proof.
  split_and!; [| |intros o];
    unfold name_from_headers, filename_from_content_disposition,
      read_content_length, name_from_content_type, find_next_filename;
    keeps_go.
Qed.

Lemma naming_calm tid resp d :
  keeps calm (name_from_headers E tid resp d)
  ∧ keeps calm (read_content_length E resp)
  ∧ ∀ o, keeps calm (name_from_content_type E resp o).
Proof.
  pose proof (naming_keeps E console tid resp d (λ _ _, eq_refl) (λ _ _, eq_refl))
    as (Hc1 & Hc2 & Hc3).
  pose proof (naming_keeps E (writes ∘ trace) tid resp d (λ _ _, eq_refl) (λ _ _, eq_refl))
    as (Ht1 & Ht2 & Ht3).
  pose proof (naming_keeps E now tid resp d (λ _ _, eq_refl) (λ _ _, eq_refl))
    as (Hn1 & Hn2 & Hn3).
  pose proof (naming_keeps E fs tid resp d (λ _ _, eq_refl) (λ _ _, eq_refl))
    as (Hf1 & Hf2 & Hf3).
  pose proof (naming_handles tid resp d) as (Hh1 & Hh2 & Hh3).
  split_and!; [| |intros o]; by apply keeps_calm.
Qed.

Lemma naming_raises tid resp d :
  raises_within (λ e, e = KeyError "filename") (name_from_headers E tid resp d)
  ∧ raises_within (λ e, e = ValueError) (read_content_length E resp)
  ∧ ∀ o, raises_within (λ e, e = AttributeError) (name_from_content_type E resp o).
Proof.
  split_and!; [| |intros o];
    unfold name_from_headers, filename_from_content_disposition,
      read_content_length, name_from_content_type, find_next_filename,
      Progress.update_filename;
    raises_go.
Qed.

(** [copy_response] either raises while it names the file, having done
    nothing that shows, or goes on to [save_response] from such a world. *)
Lemma copy_response_inv tid url path d resp w w' r :
  copy_response E tid url path d resp w = (w', r) →
  (∃ e, r = Raise e ∧ calm w w'
        ∧ e ∈ [KeyError "filename"; ValueError; AttributeError])
  ∨ (∃ w1 total name,
        calm w w1 ∧ save_response E tid url path resp total name w1 = (w', r)).
Proof.
  intros Hrun. unfold copy_response in Hrun.
  destruct (naming_calm tid resp d) as (H1 & H2 & H3).
  destruct (naming_raises tid resp d) as (X1 & X2 & X3).
  apply (bind_keeps_inv calm) in Hrun
    as [(w1 & o & R1 & Hm1 & Hrun)|(e & R1 & -> & He)]; [| |done].
  - apply (bind_keeps_inv calm) in Hrun
      as [(w2 & total & R2 & Hm2 & Hrun)|(e & R2 & -> & He)]; [| |done].
    + apply (bind_keeps_inv calm) in Hrun
        as [(w3 & name & R3 & Hm3 & Hrun)|(e & R3 & -> & He)]; [| |done].
      * right. exists w3, total, name. split; [|done].
        by do 2 (etrans; [eassumption|]).
      * left. exists e. split_and!; [done| by do 2 (etrans; [eassumption|]) |].
        apply X3 in He. set_solver.
    + left. exists e. split_and!; [done| by etrans |].
      apply X2 in He. set_solver.
  - left. exists e. split_and!; [done..|]. apply X1 in He. set_solver.
Qed.

(** The request of [copy_url]. *)
Lemma copy_url_refused tid url path d w :
  http_get E url = None →
  copy_url E tid url path d w
  = (set_tasks (delete tid) (emit (EGet url) w), Raise ConnectionError).
Proof.
  intros Hget. unfold copy_url, bind, try_except, requests_get, modify.
  simpl. by rewrite Hget.
Qed.

Lemma copy_url_answered tid url path d w resp :
  http_get E url = Some resp →
  copy_url E tid url path d w
  = copy_response E tid url path d resp (emit (EGet url) w).
Proof.
  intros Hget. unfold copy_url, bind, try_except, requests_get, modify.
  simpl. by rewrite Hget.
Qed.

(** C10.  The copier returns on the cancellation path without
    deregistering its task: [remove_task] runs when the connection is
    refused and when the stream is exhausted, a copy stopped by the
    cancellation flag leaves the registered handles and the console as
    they were, and the completion line is logged only after every chunk
    of the stream was written. *)
Theorem cancelled_copy_keeps_its_handle tid url path d w :
  let w' := (copy_url E tid url path d w).1 in
  let r := (copy_url E tid url path d w).2 in
  (http_get E url = None → r = Raise ConnectionError ∧ tasks w' !! tid = None)
  ∧ (r = Ok Returned → handles w' = handles w ∧ console w' = console w)
  ∧ (r = Ok Exhausted →
       tasks w' !! tid = None
       ∧ ∃ resp p, http_get E url = Some resp
           ∧ console w' = (console w ++ [downloaded_line url p])%list
           ∧ chunk_writes (trace w') = chunk_writes (trace w) + length (iter_content resp))
  ∧ (∀ e, r = Raise e → console w' = console w).
Proof.
  intros w' r. subst w' r. destruct (http_get E url) as [resp|] eqn:Hget.
  - rewrite (copy_url_answered _ _ _ _ _ _ Hget).
    destruct (copy_response E tid url path d resp (emit (EGet url) w))
      as [w' r] eqn:Hrun. simpl.
    apply copy_response_inv in Hrun
      as [(e & -> & (Hc & Hh & _) & _)|(w1 & total & name & (Hc & Hh & Hw & _) & Hsave)].
    + split_and!; [done..|]. intros ? _. exact Hc.
    + apply save_response_ends in Hsave. destruct r as [[]|e].
      * destruct Hsave as (Ht & Hl & Hn). split_and!; [done..| |done].
        intros _. split; [done|]. exists resp, (Fs.joinpath path name).
        split_and!; [done| by rewrite Hl, Hc |].
        rewrite Hn. unfold chunk_writes. rewrite Hw. simpl.
        by rewrite writes_other.
      * destruct Hsave as (Hl & Hh2 & _). split_and!; [done| |done|done].
        intros _. split; [by rewrite Hh2, Hh | by rewrite Hl, Hc].
      * destruct Hsave as (Hl & _). split_and!; [done..|].
        intros ? _. by rewrite Hl, Hc.
  - rewrite (copy_url_refused _ _ _ _ _ Hget). simpl. split_and!; [|done..].
    intros _. split; [done|]. apply lookup_delete_eq.
Qed.

End CopyUrl.

Lemma cancelled_copy_keeps_its_handle_witness :
  let E := Sample.env (Some 0) in
  let w := (Progress.add_task "data.csv" (Sample.world ∅)).1 in
  let w' := (copy_url E 0 "http://example.com/a/b/data.csv" "." (Some "data.csv") w).1 in
  handles w' = handles w ∧ console w' = console w.
Proof.
  intros E w w'.
  apply (proj1 (proj2 (cancelled_copy_keeps_its_handle E 0
           "http://example.com/a/b/data.csv" "." (Some "data.csv") w))).
  vm_compute. reflexivity.
Defined.

(** ** Cancellation *)

Section Cancellation.

Variable E : Env.

Lemma save_response_late tid url path resp total name s w :
  sigint E = Some s →
  late_writes s (trace (save_response E tid url path resp total name w).1)
  ≤ late_writes s (trace w) + 1.
Proof.
  intros Hs. set (p := Fs.joinpath path name).
  destruct (save_response E tid url path resp total name w) as [w' r] eqn:Hrun.
  rewrite save_response_eq in Hrun. fold p in Hrun. simpl.
  apply (bind_keeps_inv (unchanged (writes ∘ trace))) in Hrun
    as [(w1 & [] & Hw & _ & Hrun)|(e & Hw & _)];
    [| unfold unchanged, late_writes in *; simpl in Hw; rewrite Hw; lia
     | apply open_destination_writes].
  unfold unchanged in Hw. simpl in Hw.
  pose proof (write_chunks_late E tid p (iter_content resp) s w1 Hs) as Hlate.
  apply bind_inv in Hrun as [(w2 & exit & Hloop & Hrun)|(e & Hloop & ->)].
  - rewrite Hloop in Hlate. simpl in Hlate.
    assert (trace w' = trace w2) as ->.
    { destruct exit; cbv [bind Progress.remove_task Progress.console_log modify ret]
        in Hrun; by simplify_eq. }
    unfold late_writes in *. rewrite <- Hw. done.
  - rewrite Hloop in Hlate. simpl in Hlate.
    unfold late_writes in *. rewrite <- Hw. done.
Qed.

Lemma copy_url_late tid url path d s w :
  sigint E = Some s →
  late_writes s (trace (copy_url E tid url path d w).1)
  ≤ late_writes s (trace w) + 1.
Proof.
  intros Hs. destruct (http_get E url) as [resp|] eqn:Hget.
  - rewrite (copy_url_answered _ _ _ _ _ _ _ Hget).
    destruct (copy_response E tid url path d resp (emit (EGet url) w))
      as [w' r] eqn:Hrun. simpl.
    assert (late_writes s (trace (emit (EGet url) w)) = late_writes s (trace w)) as Hget'.
    { unfold late_writes. simpl. by rewrite writes_other. }
    apply copy_response_inv in Hrun
      as [(e & -> & (_ & _ & Hw & _) & _)|(w1 & total & name & (_ & _ & Hw & _) & Hsave)].
    + unfold late_writes in *. rewrite Hw, Hget'. lia.
    + pose proof (save_response_late tid url path resp total name s w1 Hs) as Hl.
      rewrite Hsave in Hl. simpl in Hl. unfold late_writes in *.
      rewrite Hw, Hget' in Hl. done.
  - rewrite (copy_url_refused _ _ _ _ _ _ Hget). simpl.
    unfold late_writes. simpl. rewrite writes_other by done. lia.
Qed.

Lemma copy_url_returned tid url path d w :
  (copy_url E tid url path d w).2 = Ok Returned →
  ∃ s, sigint E = Some s ∧ s < now (copy_url E tid url path d w).1.
Proof.
  destruct (http_get E url) as [resp|] eqn:Hget.
  - rewrite (copy_url_answered _ _ _ _ _ _ _ Hget).
    destruct (copy_response E tid url path d resp (emit (EGet url) w))
      as [w' r] eqn:Hrun. simpl. intros ->.
    apply copy_response_inv in Hrun
      as [(e & ? & _)|(w1 & total & name & _ & Hsave)]; [done|].
    apply save_response_ends in Hsave. by destruct Hsave as (_ & _ & ?).
  - by rewrite (copy_url_refused _ _ _ _ _ _ Hget).
Qed.

Lemma submit_all_writes urls :
  keeps (unchanged (writes ∘ trace)) (submit_all E urls).
Proof. induction urls; simpl; keeps_go. Qed.

Lemma collect_trace futures : keeps (unchanged trace) (collect futures).
Proof. induction futures; simpl; keeps_go. Qed.

Lemma run_pool_late dest jobs s w :
  sigint E = Some s →
  late_writes s (trace (run_pool E dest jobs w).1)
  ≤ late_writes s (trace w) + length jobs.
Proof.
  intros Hs. revert w. induction jobs as [|job rest IH]; intros w; simpl; [lia|].
  unfold bind at 1.
  pose proof (copy_url_late (job_task job) (job_url job) dest
                (Some (job_default job)) s w Hs) as Hone.
  destruct (copy_url E (job_task job) (job_url job) dest (Some (job_default job)) w)
    as [w1 r1]. simpl in Hone.
  specialize (IH w1). unfold bind.
  destruct (run_pool E dest rest w1) as [w2 [futures|e]]; simpl in *; lia.
Qed.

Lemma submit_all_length urls w :
  ∃ jobs, (submit_all E urls w).2 = Ok jobs ∧ length jobs = length urls.
Proof.
  revert w. induction urls as [|url rest IH]; intros w; simpl; [by eexists|].
  unfold bind.
  destruct (Progress.add_task _ w) as [w0 [tid|e]] eqn:Hadd; [|by cbv in Hadd].
  destruct (IH w0) as (jobs & Hjobs & Hlen).
  destruct (submit_all E rest w0) as [w1 r1]. simpl in *. subst r1.
  eexists. split; [done|]. simpl. by rewrite Hlen.
Qed.

(** With the flag already set the loop stops after its first chunk. *)
Lemma write_chunks_flag_set tid p data rest s w :
  sigint E = Some s → s ≤ S (now w) →
  ∃ w', write_chunks E tid p (data :: rest) w = (w', Ok Returned)
    ∧ fs w' = alter (append_data data) p (fs w)
    ∧ trace w' = (trace w ++ [EWrite p (now w)])%list.
Proof.
  intros Hs Hle. simpl.
  unfold bind, file_write, Progress.update_advance, modify, done_event_is_set.
  simpl. rewrite Hs. rewrite bool_decide_eq_true_2 by done. by eexists.
Qed.

(** A copy whose file is opened with the flag already set writes its
    first chunk all the same, at a time when the flag is set. *)
Lemma save_response_flag_set_late tid url path resp total name s w w' exit :
  sigint E = Some s → s ≤ now w →
  save_response E tid url path resp total name w = (w', Ok exit) →
  late_writes s (trace w')
  = late_writes s (trace w) + length (take 1 (iter_content resp))
  ∧ (exit = Returned ↔ iter_content resp ≠ []).
Proof.
  set (p := Fs.joinpath path name). intros Hs Hle. rewrite save_response_eq. fold p.
  intros Hrun.
  apply bind_inv in Hrun as [(w1 & [] & Hopen & Hrun)|(e & _ & ?)]; [|done].
  pose proof (keeps_run _ _ _ _ _ (open_destination_now tid p total) Hopen) as Hnow.
  pose proof (keeps_run _ _ _ _ _ (open_destination_writes tid p total) Hopen) as Hwr.
  unfold unchanged in Hnow, Hwr. simpl in Hwr.
  destruct (iter_content resp) as [|data rest].
  - cbv [write_chunks bind ret Progress.remove_task Progress.console_log modify] in Hrun.
    simplify_eq. simpl. unfold late_writes. rewrite Hwr. split; [lia|done].
  - destruct (write_chunks_flag_set tid p data rest s w1 Hs) as (w2 & Hloop & _ & Htr);
      [lia|].
    rewrite (bind_ok _ _ _ _ _ Hloop) in Hrun. cbv [ret] in Hrun. simplify_eq.
    split; [|done]. rewrite Htr, late_writes_write.
    rewrite bool_decide_eq_true_2 by lia. unfold late_writes. rewrite Hwr. simpl. lia.
Qed.

(** A loop that ran out of chunks never saw the flag set, so none of its
    writes came after the flag was set. *)
Lemma write_chunks_exhausted_late tid p chunks s w :
  sigint E = Some s →
  (write_chunks E tid p chunks w).2 = Ok Exhausted →
  late_writes s (trace (write_chunks E tid p chunks w).1) = late_writes s (trace w).
Proof.
  intros Hs. revert w. induction chunks as [|data rest IH]; intros w; simpl; [done|].
  unfold bind, file_write, Progress.update_advance, modify, done_event_is_set.
  simpl. rewrite Hs. case_bool_decide as Hlate; simpl; [done|].
  intros Hex. rewrite (IH _ Hex). simpl. rewrite late_writes_write.
  rewrite bool_decide_eq_false_2 by lia. lia.
Qed.

Lemma copy_url_exhausted_late tid url path d s w :
  sigint E = Some s →
  (copy_url E tid url path d w).2 = Ok Exhausted →
  late_writes s (trace (copy_url E tid url path d w).1) = late_writes s (trace w).
Proof.
  intros Hs. destruct (http_get E url) as [resp|] eqn:Hget;
    [|by rewrite (copy_url_refused _ _ _ _ _ _ Hget)].
  rewrite (copy_url_answered _ _ _ _ _ _ _ Hget).
  destruct (copy_response E tid url path d resp (emit (EGet url) w)) as [w' r] eqn:Hrun.
  simpl. intros ->.
  apply copy_response_inv in Hrun
    as [(e & ? & _)|(w1 & total & name & (_ & _ & Hwr & _) & Hsave)]; [done|].
  rewrite save_response_eq in Hsave.
  apply bind_inv in Hsave as [(w2 & [] & Hopen & Hsave)|(e & _ & ?)]; [|done].
  pose proof (keeps_run _ _ _ _ _ (open_destination_writes tid _ total) Hopen) as Hwr2.
  unfold unchanged in Hwr2. simpl in Hwr2.
  apply bind_inv in Hsave as [(w3 & x & Hloop & Hsave)|(e & _ & ?)]; [|done].
  destruct x; cbv [bind Progress.remove_task Progress.console_log modify ret] in Hsave;
    simplify_eq. simpl.
  pose proof (write_chunks_exhausted_late tid (Fs.joinpath path name)
                (iter_content resp) s w2 Hs) as Hlate.
  rewrite Hloop in Hlate. simpl in Hlate. rewrite (Hlate eq_refl).
  unfold late_writes. rewrite Hwr2, Hwr. simpl. by rewrite writes_other.
Qed.

Lemma copy_url_flag_set_late tid url path d s w w' exit resp :
  sigint E = Some s → s ≤ now w →
  http_get E url = Some resp →
  copy_url E tid url path d w = (w', Ok exit) →
  late_writes s (trace w')
  = late_writes s (trace w) + length (take 1 (iter_content resp))
  ∧ (exit = Returned ↔ iter_content resp ≠ []).
Proof.
  intros Hs Hle Hget Hrun. rewrite (copy_url_answered _ _ _ _ _ _ _ Hget) in Hrun.
  apply copy_response_inv in Hrun
    as [(e & ? & _)|(w1 & total & name & (_ & _ & Hwr & Hnow & _) & Hsave)]; [done|].
  apply (save_response_flag_set_late _ _ _ _ _ _ s) in Hsave as (Hcount & Hexit);
    [|done|rewrite Hnow; simpl; lia].
  split; [|done]. rewrite Hcount. unfold late_writes. rewrite Hwr. simpl.
  by rewrite writes_other.
Qed.

(** C6, as amended.  The cancellation flag is checked after each chunk
    write, not before it.  With SIGINT arriving at time [s], one call of
    [copy_url] writes at most one chunk at or after [s]; it takes the
    [return] of its loop only with the flag set, and when it runs to the
    end of the stream none of its chunks was written at or after [s].  A
    copy that starts when the flag is already set, and gets as far as
    returning, has all the same written the first chunk of the body, at a
    time when the flag was set, and no other chunk; it then ends on the
    [return] of the loop, unless the body has no chunk at all.  A whole
    [download] writes at most one chunk per URL at or after [s]. *)
Theorem copier_stops_one_chunk_after_sigint s :
  sigint E = Some s →
  (∀ tid url path d w,
     late_writes s (trace (copy_url E tid url path d w).1)
     ≤ late_writes s (trace w) + 1
     ∧ ((copy_url E tid url path d w).2 = Ok Returned →
        s < now (copy_url E tid url path d w).1)
     ∧ ((copy_url E tid url path d w).2 = Ok Exhausted →
        late_writes s (trace (copy_url E tid url path d w).1)
        = late_writes s (trace w)))
  ∧ (∀ tid url path d w w' exit resp,
       s ≤ now w →
       http_get E url = Some resp →
       copy_url E tid url path d w = (w', Ok exit) →
       late_writes s (trace w')
       = late_writes s (trace w) + length (take 1 (iter_content resp))
       ∧ (exit = Returned ↔ iter_content resp ≠ []))
  ∧ (∀ urls dest w,
       late_writes s (trace (download E urls dest w).1)
       ≤ late_writes s (trace w) + length urls).
Proof.
  intros Hs. split_and!.
  - intros. split_and!; [by apply copy_url_late| |by apply copy_url_exhausted_late].
    intros Hret. apply copy_url_returned in Hret as (s' & Hs' & Hlt). congruence.
  - intros. by eapply copy_url_flag_set_late.
  - intros urls dest w. unfold download, bind.
    pose proof (submit_all_writes urls w) as Hsub.
    destruct (submit_all_length urls w) as (jobs & Hjobs & Hlen).
    destruct (submit_all E urls w) as [w1 r1]. simpl in *. subst r1.
    unfold unchanged in Hsub. simpl in Hsub.
    pose proof (run_pool_late (default "." dest) jobs s w1 Hs) as Hpool.
    destruct (run_pool E (default "." dest) jobs w1) as [w2 [futures|e]]; simpl in *.
    + pose proof (collect_trace futures w2) as Hcol. unfold unchanged in Hcol.
      rewrite Hcol. unfold late_writes in *. rewrite <- Hsub, <- Hlen. done.
    + unfold late_writes in *. rewrite <- Hsub, <- Hlen. done.
Qed.

End Cancellation.

(** C6: with [done_event] set during the first of two downloads, the second
    one, which had not begun writing, still writes a chunk. *)
Lemma write_after_sigint :
  ¬ no_write_once_set (Sample.env (Some 1))
      (download (Sample.env (Some 1))
         ["http://example.com/a/b/data.csv"; "http://example.com/"] None
         (Sample.world ∅)).1.
Proof. intros H. specialize (H 1 eq_refl). vm_compute in H. discriminate. Qed.

Lemma copier_stops_one_chunk_after_sigint_witness :
  let E := Sample.env (Some 0) in
  let url := "http://example.com/a/b/data.csv" in
  let resp := mkResponse None (Some "3") (Some "text/csv") [[x01; x02]; [x03]] in
  let w := Sample.world ∅ in
  let w' := (copy_url E 0 url "." (Some "data.csv") w).1 in
  late_writes 0 (trace w')
  = late_writes 0 (trace w) + length (take 1 (iter_content resp))
  ∧ (Returned = Returned ↔ iter_content resp ≠ []).
Proof.
  intros E url resp w w'.
  apply (proj1 (proj2 (copier_stops_one_chunk_after_sigint E 0 eq_refl)) 0 url "." (Some "data.csv") w w' Returned resp).
  - simpl. lia.
  - reflexivity.
  - vm_compute. reflexivity.
Defined.

(** ** The orchestrator *)

(** Membership in an explicit list of exceptions. *)
Ltac list_mem :=
  unfold copy_errors in *; set_unfold;
  intuition (first [congruence | subst; auto 10]).

Section Orchestrator.

Variable E : Env.

Lemma copy_url_raises tid url path d w e :
  (copy_url E tid url path d w).2 = Raise e →
  (e = ConnectionError ∧ http_get E url = None)
  ∨ (e ∈ copy_errors ∧ is_Some (http_get E url)).
Proof.
  destruct (http_get E url) as [resp|] eqn:Hget.
  - rewrite (copy_url_answered _ _ _ _ _ _ _ Hget).
    destruct (copy_response E tid url path d resp (emit (EGet url) w))
      as [w' r] eqn:Hrun. simpl. intros ->. right. split; [|by eexists].
    apply copy_response_inv in Hrun
      as [(e' & ? & _ & He)|(w1 & total & name & _ & Hsave)].
    + simplify_eq. list_mem.
    + apply save_response_ends in Hsave. destruct Hsave as (_ & _ & He).
      list_mem.
  - rewrite (copy_url_refused _ _ _ _ _ _ Hget). simpl. intros [= <-]. by left.
Qed.

Lemma run_pool_spec dest jobs w :
  ∃ w2 futures, run_pool E dest jobs w = (w2, Ok futures)
                ∧ pool_run E dest w jobs w2 futures.
Proof.
  revert w. induction jobs as [|job rest IH]; intros w; simpl.
  - do 2 eexists. split; [done|constructor].
  - unfold bind at 1.
    destruct (copy_url E (job_task job) (job_url job) dest (Some (job_default job)) w)
      as [w1 r1] eqn:Hjob.
    destruct (IH w1) as (w2 & futures & Hrun & Hpool). unfold bind. rewrite Hrun.
    simpl. do 2 eexists. split; [done|]. by econstructor.
Qed.

(** What the second loop of [download] makes of the futures. *)
Lemma collect_raises futures w e :
  (collect futures w).2 = Raise e →
  e ≠ ConnectionError ∧ ∃ future, future ∈ futures ∧ future_result future = Raise e.
Proof.
  revert w. induction futures as [|future rest IH]; intros w; simpl; [done|].
  destruct (future_result future) as [x|e'] eqn:Hres.
  - intros Hrest. destruct (IH _ Hrest) as (Hne & f & Hin & Hf).
    split; [done|]. exists f. split; [by right|done].
  - destruct (decide (e' = ConnectionError)) as [->|Hne].
    + unfold bind, Progress.console_log, modify. simpl.
      intros Hrest. destruct (IH _ Hrest) as (Hne & f & Hin & Hf).
      split; [done|]. exists f. split; [by right|done].
    + assert ((collect (future :: rest) w).2 = Raise e') as Hraise.
      { simpl. rewrite Hres. by destruct e'. }
      simpl in Hraise. rewrite Hres in Hraise.
      intros Heq. assert (e = e') as -> by (destruct e'; congruence).
      split; [done|]. exists future. split; [by left|done].
Qed.

(** The console after the second loop: what was there, then one line per
    refused connection among the futures read. *)
Lemma collect_console futures w :
  ∃ read, console (collect futures w).1
          = (console w ++ map (λ f, failed_line (job_url (future_job f))) read)%list
    ∧ (∀ f, f ∈ read → f ∈ futures ∧ future_result f = Raise ConnectionError)
    ∧ ((collect futures w).2 = Ok tt →
       ∀ f, f ∈ futures → future_result f = Raise ConnectionError → f ∈ read).
Proof.
  revert w. induction futures as [|future rest IH]; intros w; simpl.
  - exists []. split_and!; [by rewrite app_nil_r|by intros ? ?%elem_of_nil|].
    by intros _ ? ?%elem_of_nil.
  - destruct (future_result future) as [x|e'] eqn:Hres.
    + destruct (IH w) as (read & Hc & Hin & Hall). exists read. split_and!; [done| |].
      * intros f Hf. destruct (Hin f Hf). split; [by right|done].
      * intros Hok f [->|Hf]%elem_of_cons Hr; [congruence|by apply Hall].
    + destruct (decide (e' = ConnectionError)) as [->|Hne].
      * unfold bind, Progress.console_log, modify. simpl.
        destruct (IH (set_console (λ c, (c ++ [failed_line (job_url (future_job future))])%list) w))
          as (read & Hc & Hin & Hall).
        exists (future :: read). split_and!.
        -- rewrite Hc. simpl. by rewrite <- app_assoc.
        -- intros f [->|Hf]%elem_of_cons; [split; [by left|done]|].
           destruct (Hin f Hf). split; [by right|done].
        -- intros Hok f [->|Hf]%elem_of_cons Hr; [by left|]. right. by apply Hall.
      * exists []. assert ((collect (future :: rest) w) = (w, Raise e')) as Hraise.
        { simpl. rewrite Hres. by destruct e'. }
        simpl in Hraise. rewrite Hres in Hraise. rewrite Hraise. simpl.
        split_and!; [by rewrite app_nil_r|by intros ? ?%elem_of_nil|done].
Qed.

End Orchestrator.

Section Run.

Variable E : Env.

Lemma pool_run_results dest w jobs w2 futures :
  pool_run E dest w jobs w2 futures →
  ∀ f, f ∈ futures →
    ∃ w0, future_result f
          = (copy_url E (job_task (future_job f)) (job_url (future_job f)) dest
               (Some (job_default (future_job f))) w0).2.
Proof.
  induction 1 as [|w job rest w1 r w2 futures Hjob _ IH]; [by intros ? ?%elem_of_nil|].
  intros f [->|Hf]%elem_of_cons; [|by apply IH].
  exists w. simpl. by rewrite Hjob.
Qed.

(** [download] lets through only what a copy raised, and never a refused
    connection. *)
Lemma download_raises urls dest w e :
  (download E urls dest w).2 = Raise e → e ∈ copy_errors.
Proof.
  unfold download, bind.
  destruct (submit_all_length E urls w) as (jobs & Hjobs & _).
  destruct (submit_all E urls w) as [w1 r1]. simpl in Hjobs. subst r1.
  destruct (run_pool_spec E (default "." dest) jobs w1) as (w2 & futures & Hrun & Hpool).
  rewrite Hrun. intros Hcol. apply collect_raises in Hcol as (Hne & f & Hin & Hf).
  destruct (pool_run_results _ _ _ _ _ Hpool f Hin) as (w0 & Hres).
  rewrite Hf in Hres. symmetry in Hres.
  apply copy_url_raises in Hres as [[-> _]|[He _]]; done.
Qed.

(** C5.  A destination that does not exist, or is not a directory, makes
    the run fail with [DestinationDoesNotExist], respectively
    [DestinationIsNotDirectory], in the world it started in: no task was
    added to the sink, no request was sent, no file was touched.  The
    check is made once, before [download] is entered: with a valid
    destination the run is [download] itself, which never raises either
    of the two. *)
Theorem destination_is_validated_first dest urls w :
  let dir := default "." dest in
  (Fs.is_dir (fs w) dir = false →
   main E dest urls w
   = (w, Raise (if Fs.path_exists (fs w) dir
                then DestinationIsNotDirectory else DestinationDoesNotExist)))
  ∧ (Fs.is_dir (fs w) dir = true → urls ≠ [] →
     main E dest urls w = download E urls (Some dir) w)
  ∧ (∀ d e, (download E urls d w).2 = Raise e →
            e ≠ DestinationDoesNotExist ∧ e ≠ DestinationIsNotDirectory).
Proof.
  intros dir. split_and!.
  - intros Hdir. unfold main, directory_path, gets, bind. simpl. fold dir.
    destruct (Fs.path_exists (fs w) dir) eqn:Hex; simpl; [|done].
    by rewrite Hdir.
  - intros Hdir Hurls. unfold main, directory_path, gets, bind. simpl. fold dir.
    assert (Fs.path_exists (fs w) dir = true) as ->.
    { unfold Fs.is_dir, Fs.path_exists in *. by destruct (Fs.lookup_path (fs w) dir). }
    rewrite Hdir. simpl. by destruct urls.
  - intros d e He%download_raises. split; intros ->; list_mem.
Qed.

End Run.

Lemma destination_is_validated_first_witness :
  main (Sample.env None) (Some "missing") ["http://example.com/"] (Sample.world ∅)
  = (Sample.world ∅, Raise DestinationDoesNotExist).
Proof.
  etrans.
  - apply (proj1 (destination_is_validated_first (Sample.env None) (Some "missing")
                    ["http://example.com/"] (Sample.world ∅))).
    vm_compute. reflexivity.
  - vm_compute. reflexivity.
Defined.

Lemma append_empty (s : string) : s ++ "" = s.
Proof.
  induction s as [|a s IH]; [done|].
  change (String a s ++ "") with (String a (s ++ "")). by rewrite IH.
Qed.

(** ** Random words and the probing for a free name *)

Section Probing.

Variable E : Env.

Lemma choice_lowercase d : choice d ∈ Py.ascii_lowercase.
Proof.
  unfold choice. rewrite nth_lookup.
  destruct (lookup_lt_is_Some_2 Py.ascii_lowercase (d `mod` 26)) as [a Ha].
  { change (length Py.ascii_lowercase) with 26. apply Nat.mod_upper_bound. lia. }
  rewrite Ha. simpl. by eapply list_elem_of_lookup_2.
Qed.

Lemma random_letters_length pos n : String.length (random_letters E pos n) = n.
Proof. revert pos. induction n as [|n IH]; intros pos; simpl; [done|]. by rewrite IH. Qed.

Lemma random_letters_lowercase pos n : lowercase (random_letters E pos n).
Proof.
  revert pos. induction n as [|n IH]; intros pos; simpl; [constructor|].
  constructor; [apply choice_lowercase|apply IH].
Qed.

(** X1.  [randomword length] returns a word of exactly [length]
    letters, all of them lowercase ASCII letters, the [i]-th being the
    choice made with the [i]-th draw after those already consumed, and it
    consumes [length] draws and changes nothing else. *)
Theorem randomword_draws_lowercase_letters n w :
  ∃ word, randomword E n w = (set_rng (rng w + n) w, Ok word)
    ∧ String.length word = n
    ∧ lowercase word
    ∧ (∀ i, i < n →
         String.get i word = Some (choice (random_draw E (rng w + i)))).
Proof.
  exists (random_letters E (rng w) n). split_and!; [done| | |].
  - apply random_letters_length.
  - apply random_letters_lowercase.
  - generalize (rng w) as pos. induction n as [|n IH]; intros pos i Hi; [lia|].
    simpl. destruct i as [|i]; [by rewrite Nat.add_0_r|].
    rewrite IH by lia. do 3 f_equal. lia.
Qed.

Lemma first_free_cons files name i range :
  first_free files name (i :: range)
  = if negb (Fs.isfile files (name ++ "." ++ Py.str_of_nat i))
    then Some (name ++ "." ++ Py.str_of_nat i)
    else first_free files name range.
Proof. reflexivity. Qed.

Lemma first_free_app files name tried range :
  Forall (λ j, Fs.isfile files (name ++ "." ++ Py.str_of_nat j) = true) tried →
  first_free files name (tried ++ range) = first_free files name range.
Proof.
  induction 1 as [|j tried Hj _ IH]; [done|].
  rewrite <- app_comm_cons, first_free_cons, Hj. exact IH.
Qed.

Lemma first_free_Some files name range c :
  first_free files name range = Some c →
  Fs.isfile files c = false
  ∧ ∃ i, i ∈ range ∧ c = name ++ "." ++ Py.str_of_nat i.
Proof.
  induction range as [|i range IH]; [done|]. rewrite first_free_cons.
  destruct (Fs.isfile files (name ++ "." ++ Py.str_of_nat i)) eqn:Hi; simpl.
  - intros (Hc & k & Hk & ->)%IH. split; [done|]. exists k. split; [by right|done].
  - intros [= <-]. split; [done|]. exists i. split; [by left|done].
Qed.

Lemma first_free_None files name range :
  Forall (λ j, Fs.isfile files (name ++ "." ++ Py.str_of_nat j) = true) range →
  first_free files name range = None.
Proof. intros H. rewrite <- (app_nil_r range). by rewrite first_free_app. Qed.

Lemma first_free_None_inv files name range :
  first_free files name range = None →
  Forall (λ j, Fs.isfile files (name ++ "." ++ Py.str_of_nat j) = true) range.
Proof.
  induction range as [|i range IH]; [constructor|]. rewrite first_free_cons.
  destruct (Fs.isfile files (name ++ "." ++ Py.str_of_nat i)) eqn:Hi; [|done].
  intros H. constructor; [done|by apply IH].
Qed.

Lemma find_next_filename_free_name name w :
  Fs.isfile (fs w) name = false → find_next_filename E name w = (w, Ok name).
Proof. intros H. unfold find_next_filename, bind, gets. by rewrite H. Qed.

Lemma find_next_filename_taken name w :
  Fs.isfile (fs w) name = true →
  find_next_filename E name w
  = match first_free (fs w) name (seq 1 999) with
    | Some c => (w, Ok c)
    | None => (set_rng (rng w + 16) w,
               Ok (name ++ "." ++ random_letters E (rng w) 16))
    end.
Proof.
  intros H. unfold find_next_filename, bind, gets. rewrite H.
  cbv beta iota delta [negb]. by destruct (first_free (fs w) name (seq 1 999)).
Qed.

(** [find_next_filename] always returns a name that starts with the one it
    was given, and leaves the files alone; the name it returns is an
    existing file only if the name given and all of its 999 numbered
    variants are, the name then being the random one. *)
Lemma find_next_filename_result name w :
  ∃ c w', find_next_filename E name w = (w', Ok c)
    ∧ fs w' = fs w
    ∧ (∃ rest, c = name ++ rest)
    ∧ (Fs.isfile (fs w) name = false → c = name ∧ w' = w)
    ∧ (Fs.isfile (fs w) c = true →
       Fs.isfile (fs w) name = true
       ∧ Forall (λ i, Fs.isfile (fs w) (name ++ "." ++ Py.str_of_nat i) = true) (seq 1 999)
       ∧ w' = set_rng (rng w + 16) w
       ∧ c = name ++ "." ++ random_letters E (rng w) 16).
Proof.
  destruct (Fs.isfile (fs w) name) eqn:Hname.
  - rewrite find_next_filename_taken by done.
    destruct (first_free (fs w) name (seq 1 999)) as [c|] eqn:Hfree.
    + exists c, w. apply first_free_Some in Hfree as (Hc & i & _ & Hi).
      split_and!; [done..|by eexists|done|congruence].
    + apply first_free_None_inv in Hfree. do 2 eexists.
      split_and!; [done..|by eexists|done|done].
  - rewrite find_next_filename_free_name by done. exists name, w.
    split_and!; [done..| |done|congruence]. exists "". by rewrite append_empty.
Qed.

(** X2.  [find_next_filename] never raises and never touches the files.
    It returns the name it was given when that is not a file; the name
    it returns is an existing file of the working directory only in the
    case where it drew a random suffix, which it does only when all of
    [name.1] ... [name.999] are files. *)
Theorem find_next_filename_avoids_files name w :
  ∃ c, (find_next_filename E name w).2 = Ok c
    ∧ fs (find_next_filename E name w).1 = fs w
    ∧ (Fs.isfile (fs w) name = false → c = name)
    ∧ (Fs.isfile (fs w) c = true →
       rng (find_next_filename E name w).1 = rng w + 16
       ∧ ∀ i, 1 ≤ i ≤ 999 → Fs.isfile (fs w) (name ++ "." ++ Py.str_of_nat i) = true).
Proof.
  destruct (find_next_filename_result name w) as (c & w' & -> & Hfs & _ & Hfree & Hfile).
  exists c. split_and!; [done..| |].
  - intros H. by apply Hfree.
  - intros (_ & Hall & -> & _)%Hfile. split; [done|].
    intros i Hi. rewrite Forall_forall in Hall. apply Hall, elem_of_seq. lia.
Qed.

(** X3.  When the name is taken, [find_next_filename] returns the
    numbered name with the least number from 1 to 999 that is not a
    file, and draws nothing from the random source. *)
Theorem find_next_filename_takes_first_free_number name i w :
  Fs.isfile (fs w) name = true →
  1 ≤ i ≤ 999 →
  (∀ j, 1 ≤ j < i → Fs.isfile (fs w) (name ++ "." ++ Py.str_of_nat j) = true) →
  Fs.isfile (fs w) (name ++ "." ++ Py.str_of_nat i) = false →
  find_next_filename E name w = (w, Ok (name ++ "." ++ Py.str_of_nat i)).
Proof.
  intros Hname Hi Hbelow Hfree. rewrite find_next_filename_taken by done.
  assert (seq 1 999 = (seq 1 (i - 1) ++ i :: seq (S i) (999 - i))%list) as ->.
  { assert (999 = (i - 1) + S (999 - i)) as Hlen by lia.
    rewrite Hlen at 1. rewrite seq_app. rewrite <- cons_seq.
    f_equal. replace (1 + (i - 1)) with i by lia. done. }
  rewrite first_free_app, first_free_cons, Hfree; [done|].
  apply Forall_forall. intros j Hj%elem_of_seq. apply Hbelow. lia.
Qed.

(** X4.  When the name and all of its 999 numbered variants are taken,
    [find_next_filename] gives up probing and returns the name followed
    by a dot and sixteen random lowercase letters, without checking that
    name against the files. *)
Theorem find_next_filename_falls_back_to_random_suffix name w :
  Fs.isfile (fs w) name = true →
  Forall (λ i, Fs.isfile (fs w) (name ++ "." ++ Py.str_of_nat i) = true) (seq 1 999) →
  ∃ suffix,
    find_next_filename E name w
    = (set_rng (rng w + 16) w, Ok (name ++ "." ++ suffix))
    ∧ String.length suffix = 16
    ∧ lowercase suffix.
Proof.
  intros Hname Hall. rewrite find_next_filename_taken by done.
  rewrite first_free_None by done. exists (random_letters E (rng w) 16).
  split_and!; [done| |].
  - apply random_letters_length.
  - apply random_letters_lowercase.
Qed.

End Probing.

(** ** What a copy leaves in its file *)

Section Content.

Variable E : Env.

(** What the loop leaves in the file it writes to: what was there, then
    the chunks it got to, which are all of them unless it was stopped,
    and one at least when it was. *)
Lemma write_chunks_content tid p chunks w old :
  fs w !! p = Some (File old) →
  ∃ k, k ≤ length chunks
    ∧ fs (write_chunks E tid p chunks w).1 !! p
      = Some (File (old ++ concat (take k chunks)))
    ∧ match (write_chunks E tid p chunks w).2 with
      | Ok Exhausted => k = length chunks
      | Ok Returned => 1 ≤ k
      | Raise _ => False
      end.
Proof.
  revert w old. induction chunks as [|data rest IH]; intros w old Hold.
  - exists 0. simpl. rewrite app_nil_r. done.
  - simpl. unfold bind, file_write, Progress.update_advance, modify, done_event_is_set.
    simpl. set (w1 := set_now _ _).
    assert (fs w1 !! p = Some (File (old ++ data))) as Hnew.
    { subst w1. simpl. rewrite lookup_alter_eq, Hold. done. }
    destruct (match sigint E with Some t => bool_decide (t ≤ _) | None => false end).
    + exists 1. simpl. rewrite app_nil_r. split_and!; [lia|done|done].
    + destruct (IH w1 _ Hnew) as (k & Hk & Hfile & Hend). exists (S k).
      simpl. rewrite app_assoc. split_and!; [lia|done|].
      destruct (write_chunks E tid p rest w1).2 as [[]|]; [lia|lia|done].
Qed.

Lemma open_destination_fs tid p total w w1 :
  open_destination tid p total w = (w1, Ok tt) →
  fs w1 = <[p := File []]> (fs w) ∧ p ≠ ".".
Proof.
  unfold open_destination, bind, open_wb, Progress.update_total,
    Progress.start_task, modify, ret, Fs.lookup_path.
  destruct total; simpl; repeat case_match; intros; simplify_eq; done.
Qed.

Lemma save_response_content tid url path resp total name w w' exit :
  save_response E tid url path resp total name w = (w', Ok exit) →
  ∃ k, k ≤ length (iter_content resp)
    ∧ fs w' = <[Fs.joinpath path name := File (concat (take k (iter_content resp)))]> (fs w)
    ∧ match exit with
      | Exhausted => k = length (iter_content resp)
      | Returned => 1 ≤ k
      end.
Proof.
  set (p := Fs.joinpath path name). rewrite save_response_eq. fold p. intros Hrun.
  apply bind_inv in Hrun as [(w1 & [] & Hopen & Hrun)|(e & _ & ?)]; [|done].
  apply open_destination_fs in Hopen as (Hfs & Hp).
  apply bind_inv in Hrun as [(w2 & x & Hloop & Hrun)|(e & _ & ?)]; [|done].
  assert (fs w1 !! p = Some (File [])) as Hfile by (rewrite Hfs; apply lookup_insert_eq).
  destruct (write_chunks_content tid p (iter_content resp) w1 [] Hfile)
    as (k & Hk & Hcontent & Hend).
  pose proof (keeps_run _ _ _ _ _ (write_chunks_fs E tid p (iter_content resp)) Hloop)
    as Hframe.
  rewrite Hloop in Hcontent, Hend. simpl in Hcontent, Hend.
  assert (fs w2 = <[p := File (concat (take k (iter_content resp)))]> (fs w)) as Hw2.
  { apply map_eq. intros q. destruct (decide (q = p)) as [->|Hq].
    - by rewrite lookup_insert_eq.
    - rewrite lookup_insert_ne by done. rewrite (Hframe q Hq), Hfs.
      by rewrite lookup_insert_ne. }
  exists k. destruct x; cbv [bind Progress.remove_task Progress.console_log modify ret] in Hrun;
    simplify_eq; done.
Qed.

End Content.

Section Copies.

Variable E : Env.

Lemma read_content_length_pure resp w : (read_content_length E resp w).1 = w.
Proof. unfold read_content_length. by repeat case_match. Qed.

Lemma read_content_length_anywhere resp w w' :
  (read_content_length E resp w).2 = (read_content_length E resp w').2.
Proof. unfold read_content_length. by repeat case_match. Qed.

(** [copy_response] saves under the name that [resolve_filename] gives. *)
Lemma copy_response_named tid url path d resp w w' r :
  copy_response E tid url path d resp w = (w', r) →
  (∃ e, r = Raise e ∧ calm w w'
        ∧ e ∈ [KeyError "filename"; ValueError; AttributeError])
  ∨ (∃ w1 total name,
        calm w w1 ∧ resolve_filename E tid resp d w = (w1, Ok name)
        ∧ (read_content_length E resp w).2 = Ok total
        ∧ save_response E tid url path resp total name w1 = (w', r)).
Proof.
  intros Hrun. unfold copy_response in Hrun.
  destruct (naming_calm E tid resp d) as (H1 & H2 & H3).
  destruct (naming_raises E tid resp d) as (X1 & X2 & X3).
  apply (bind_keeps_inv calm) in Hrun
    as [(w1 & o & R1 & Hm1 & Hrun)|(e & R1 & -> & He)]; [| |done].
  - apply (bind_keeps_inv calm) in Hrun
      as [(w2 & total & R2 & Hm2 & Hrun)|(e & R2 & -> & He)]; [| |done].
    + assert (w2 = w1) as ->.
      { pose proof (read_content_length_pure resp w1) as Hp. by rewrite Hm2 in Hp. }
      apply (bind_keeps_inv calm) in Hrun
        as [(w3 & name & R3 & Hm3 & Hrun)|(e & R3 & -> & He)]; [| |done].
      * right. exists w3, total, name. split_and!; [by etrans| | |done].
        -- unfold resolve_filename. by rewrite (bind_ok _ _ _ _ _ Hm1).
        -- by rewrite (read_content_length_anywhere resp w w1), Hm2.
      * left. exists e. split_and!; [done| by etrans |].
        apply X3 in He. set_solver.
    + left. exists e. split_and!; [done| by etrans |].
      apply X2 in He. set_solver.
  - left. exists e. split_and!; [done..|]. apply X1 in He. set_solver.
Qed.



Lemma open_destination_raises tid p total w w1 e :
  open_destination tid p total w = (w1, Raise e) →
  fs w1 = fs w ∧ trace w1 = trace w ∧ console w1 = console w ∧ handles w1 = handles w
  ∧ now w1 = now w.
Proof.
  intros Hrun.
  pose proof (keeps_run _ _ _ _ _ (open_destination_console tid p total) Hrun) as Hc.
  pose proof (keeps_run _ _ _ _ _ (open_destination_handles tid p total) Hrun) as Hh.
  pose proof (keeps_run _ _ _ _ _ (open_destination_now tid p total) Hrun) as Hn.
  split_and!; [| |done..]; revert Hrun; clear Hc Hh Hn;
    unfold open_destination, bind, open_wb, Progress.update_total,
      Progress.start_task, modify, ret;
    destruct total; simpl; repeat case_match; intros; simplify_eq; done.
Qed.

Lemma save_response_raises tid url path resp total name w w' e :
  save_response E tid url path resp total name w = (w', Raise e) →
  fs w' = fs w ∧ trace w' = trace w ∧ console w' = console w ∧ handles w' = handles w
  ∧ now w' = now w.
Proof.
  rewrite save_response_eq. intros Hrun.
  apply bind_inv in Hrun as [(w1 & [] & _ & Hrun)|(e' & Hopen & _)];
    [|by eapply open_destination_raises].
  apply bind_inv in Hrun as [(w2 & x & _ & Hrun)|(e' & Hloop & _)].
  - destruct x; cbv [bind Progress.remove_task Progress.console_log modify ret] in Hrun;
      simplify_eq.
  - pose proof (write_chunks_returns E tid (Fs.joinpath path name) (iter_content resp) w1)
      as [x Hx].
    by rewrite Hloop in Hx.
Qed.

(** Nothing shows of a [copy_response] that raises, and its trace is the
    one it started with. *)
Lemma copy_response_raises tid url path d resp w w' e :
  copy_response E tid url path d resp w = (w', Raise e) →
  calm w w' ∧ trace w' = trace w.
Proof.
  destruct (naming_keeps E trace tid resp d (λ _ _, eq_refl) (λ _ _, eq_refl))
    as (T1 & T2 & T3).
  destruct (naming_calm E tid resp d) as (H1 & H2 & H3).
  unfold copy_response, unchanged in *. intros Hrun.
  apply bind_inv in Hrun as [(w1 & o & Hm1 & Hrun)|(e1 & Hm1 & _)].
  2:{ split; [exact (keeps_run _ _ _ _ _ H1 Hm1)|exact (keeps_run _ _ _ _ _ T1 Hm1)]. }
  pose proof (keeps_run _ _ _ _ _ H1 Hm1) as C1.
  pose proof (keeps_run _ _ _ _ _ T1 Hm1) as E1. simpl in E1.
  apply bind_inv in Hrun as [(w2 & total & Hm2 & Hrun)|(e2 & Hm2 & _)].
  2:{ split; [etrans; [exact C1|exact (keeps_run _ _ _ _ _ H2 Hm2)]|].
      rewrite <- E1. exact (keeps_run _ _ _ _ _ T2 Hm2). }
  pose proof (keeps_run _ _ _ _ _ H2 Hm2) as C2.
  pose proof (keeps_run _ _ _ _ _ T2 Hm2) as E2. simpl in E2.
  apply bind_inv in Hrun as [(w3 & name & Hm3 & Hrun)|(e3 & Hm3 & _)].
  2:{ split; [do 2 (etrans; [eassumption|]); exact (keeps_run _ _ _ _ _ (H3 o) Hm3)|].
      rewrite <- E1, <- E2. exact (keeps_run _ _ _ _ _ (T3 o) Hm3). }
  pose proof (keeps_run _ _ _ _ _ (H3 o) Hm3) as C3.
  pose proof (keeps_run _ _ _ _ _ (T3 o) Hm3) as E3. simpl in E3.
  apply save_response_raises in Hrun as (S1 & S2 & S3 & S4 & S5).
  split; [|congruence].
  do 3 (etrans; [eassumption|]). unfold calm. rewrite S1, S2, S3, S4, S5. done.
Qed.


End Copies.

(** ** The two loops of [download] *)

Section Submitting.

Variable E : Env.

Lemma submit_all_run urls w :
  ∃ w', submit_all E urls w = (w', Ok (imap (job_of E (next_task w)) urls))
    ∧ next_task w' = next_task w + length urls
    ∧ fs w' = fs w ∧ console w' = console w ∧ trace w' = trace w
    ∧ rng w' = rng w ∧ now w' = now w
    ∧ (∀ t, t < next_task w → tasks w' !! t = tasks w !! t)
    ∧ (∀ i url, urls !! i = Some url →
         tasks w' !! (next_task w + i)
         = Some (fresh_task (Py.split_last "/" (urlparse_path E url)))).
Proof.
  revert w. induction urls as [|url rest IH]; intros w.
  - exists w. simpl. split_and!; [done|lia|done..|].
    intros i url Hi. by rewrite lookup_nil in Hi.
  - simpl. unfold bind at 1. unfold Progress.add_task at 1.
    set (w0 := set_next_task _ _).
    destruct (IH w0) as (w' & Hrun & Hnext & Hfs & Hc & Htr & Hr & Hn & Hold & Hnew).
    exists w'. unfold bind. rewrite Hrun. simpl in *.
    split_and!; [| lia | done.. | |].
    + unfold ret. do 3 f_equal.
      * unfold job_of. by rewrite Nat.add_0_r.
      * apply imap_ext. intros i u _. unfold job_of. simpl. f_equal. lia.
    + intros t Ht. rewrite Hold by lia. simpl. apply lookup_insert_ne. lia.
    + intros [|i] u Hu; simpl in Hu.
      * simplify_eq. rewrite Nat.add_0_r, Hold by lia. simpl.
        apply lookup_insert_eq.
      * specialize (Hnew i u Hu). rewrite <- Hnew. f_equal. lia.
Qed.

End Submitting.

Lemma requests_app tr1 tr2 : requests (tr1 ++ tr2) = (requests tr1 ++ requests tr2)%list.
Proof. apply omap_app. Qed.

Section Pool.

Variable E : Env.

Lemma write_chunks_requests tid p chunks :
  keeps (unchanged (requests ∘ trace)) (write_chunks E tid p chunks).
Proof.
  apply write_chunks_keeps; try done.
  intros w data. simpl. rewrite requests_app. apply app_nil_r.
Qed.

Lemma save_response_requests tid url path resp total name :
  keeps (unchanged (requests ∘ trace)) (save_response E tid url path resp total name).
Proof.
  pose proof (write_chunks_requests tid (Fs.joinpath path name) (iter_content resp)).
  unfold save_response.
  repeat first
    [ assumption
    | apply keeps_ret; apply _
    | apply keeps_bind; [apply _ | | intros ? ]
    | match goal with
      | |- keeps _ (match ?x with _ => _ end) => destruct x
      end ].
  all: intros w; unfold unchanged, Progress.update_total, Progress.start_task,
         Progress.remove_task, Progress.console_log, open_wb, modify, ret;
       simpl; repeat case_match; simpl; rewrite ?requests_app, ?app_nil_r; done.
Qed.

Lemma copy_url_requests tid url path d w :
  requests (trace (copy_url E tid url path d w).1)
  = (requests (trace w) ++ [url])%list.
Proof.
  destruct (http_get E url) as [resp|] eqn:Hget.
  - rewrite (copy_url_answered _ _ _ _ _ _ _ Hget).
    destruct (naming_keeps E (requests ∘ trace) tid resp d (λ _ _, eq_refl) (λ _ _, eq_refl))
      as (T1 & T2 & T3).
    assert (keeps (unchanged (requests ∘ trace)) (copy_response E tid url path d resp))
      as Hk.
    { unfold copy_response. repeat (apply keeps_bind; [apply _|done|intros ?]).
      apply save_response_requests. }
    specialize (Hk (emit (EGet url) w)). unfold unchanged in Hk. simpl in Hk.
    rewrite Hk. by rewrite requests_app.
  - rewrite (copy_url_refused _ _ _ _ _ _ Hget). simpl. by rewrite requests_app.
Qed.

Lemma copy_url_tasks tid url path d :
  keeps (tasks_except tid) (copy_url E tid url path d).
Proof.
  assert (∀ p chunks, keeps (tasks_except tid) (write_chunks E tid p chunks)) as Hloop
    by (intros; apply write_chunks_tasks).
  unfold copy_url, copy_response, save_response, requests_get,
    name_from_headers, filename_from_content_disposition, read_content_length,
    name_from_content_type, find_next_filename.
  keeps_go. apply Hloop.
Qed.

Lemma copy_url_console tid url path d w :
  ∃ logged, console (copy_url E tid url path d w).1 = (console w ++ logged)%list
    ∧ Forall (is_download_line url) logged.
Proof.
  destruct (http_get E url) as [resp|] eqn:Hget.
  - rewrite (copy_url_answered _ _ _ _ _ _ _ Hget).
    destruct (copy_response E tid url path d resp (emit (EGet url) w))
      as [w' r] eqn:Hrun. simpl.
    apply copy_response_inv in Hrun
      as [(e & ? & (Hc & _) & _)|(w1 & total & name & (Hc & _) & Hsave)].
    + exists []. rewrite app_nil_r. split; [done|constructor].
    + apply save_response_ends in Hsave. destruct r as [[]|e].
      * destruct Hsave as (_ & Hlog & _). eexists. split; [by rewrite Hlog, Hc|].
        constructor; [by eexists|constructor].
      * destruct Hsave as (Hlog & _). exists []. rewrite app_nil_r.
        split; [by rewrite Hlog, Hc|constructor].
      * destruct Hsave as (Hlog & _). exists []. rewrite app_nil_r.
        split; [by rewrite Hlog, Hc|constructor].
  - rewrite (copy_url_refused _ _ _ _ _ _ Hget). exists []. rewrite app_nil_r.
    split; [done|constructor].
Qed.

Lemma copy_url_refusal tid url path d w :
  (copy_url E tid url path d w).2 = Raise ConnectionError ↔ refused E url = true.
Proof.
  unfold refused. destruct (http_get E url) as [resp|] eqn:Hget.
  - split; [|done]. intros [[_ ?]|[? _]]%copy_url_raises; [congruence|list_mem].
  - by rewrite (copy_url_refused _ _ _ _ _ _ Hget).
Qed.

End Pool.

Section Runs.

Variable E : Env.

Lemma pool_run_jobs dest w jobs w2 futures :
  pool_run E dest w jobs w2 futures → map future_job futures = jobs.
Proof. induction 1; simpl; congruence. Qed.

Lemma pool_run_requests dest w jobs w2 futures :
  pool_run E dest w jobs w2 futures →
  requests (trace w2) = (requests (trace w) ++ map job_url jobs)%list.
Proof.
  induction 1 as [|w job rest w1 r w2 futures Hjob _ IH]; [by rewrite app_nil_r|].
  pose proof (copy_url_requests E (job_task job) (job_url job) dest
                (Some (job_default job)) w) as Hone.
  rewrite Hjob in Hone. simpl in *. by rewrite IH, Hone, <- app_assoc.
Qed.

Lemma pool_run_console dest w jobs w2 futures :
  pool_run E dest w jobs w2 futures →
  ∃ logged, console w2 = (console w ++ logged)%list
    ∧ Forall (λ line, ∃ job, job ∈ jobs ∧ is_download_line (job_url job) line) logged.
Proof.
  induction 1 as [w|w job rest w1 r w2 futures Hjob _ (more & Hmore & Hlines)].
  - exists []. by rewrite app_nil_r.
  - destruct (copy_url_console E (job_task job) (job_url job) dest
                (Some (job_default job)) w) as (logged & Hlog & Hline).
    rewrite Hjob in Hlog. simpl in Hlog. exists (logged ++ more)%list.
    split; [by rewrite Hmore, Hlog, app_assoc|].
    apply Forall_app. split.
    + eapply Forall_impl; [exact Hline|]. intros line ?. exists job. split; [by left|done].
    + eapply Forall_impl; [exact Hlines|]. intros line (j & Hj & ?).
      exists j. split; [by right|done].
Qed.

Lemma pool_run_refusals dest w jobs w2 futures :
  pool_run E dest w jobs w2 futures →
  map (λ f, job_url (future_job f)) (filter is_refusal futures)
  = filter (refused E) (map job_url jobs).
Proof.
  induction 1 as [|w job rest w1 r w2 futures Hjob _ IH]; [done|].
  pose proof (copy_url_refusal E (job_task job) (job_url job) dest
                (Some (job_default job)) w) as Href.
  rewrite Hjob in Href. simpl in Href.
  assert (is_refusal (mkFuture job r) = refused E (job_url job)) as Heq.
  { unfold is_refusal. simpl. destruct (refused E (job_url job)).
    - by rewrite (proj2 Href eq_refl).
    - destruct r as [x|[]]; try done. by destruct (proj1 Href eq_refl). }
  rewrite fmap_cons, !filter_cons, Heq.
  destruct (refused E (job_url job)); simpl; [by rewrite IH|done].
Qed.

Lemma pool_run_tasks_other dest w jobs w2 futures tid :
  pool_run E dest w jobs w2 futures →
  (∀ job, job ∈ jobs → job_task job ≠ tid) →
  tasks w2 !! tid = tasks w !! tid.
Proof.
  induction 1 as [|w job rest w1 r w2 futures Hjob _ IH]; [done|]. intros Hother.
  rewrite IH by (intros j Hj; apply Hother; by right).
  pose proof (keeps_run _ _ _ _ _ (copy_url_tasks E _ _ _ _) Hjob) as Hk.
  apply Hk. intros Heq. by apply (Hother job); [left|].
Qed.

Lemma pool_run_removed dest w jobs w2 futures i job :
  pool_run E dest w jobs w2 futures →
  jobs !! i = Some job →
  (∀ j other, jobs !! j = Some other → j ≠ i → job_task other ≠ job_task job) →
  http_get E (job_url job) = None →
  tasks w2 !! job_task job = None.
Proof.
  intros Hrun. revert i. induction Hrun as [|w j0 rest w1 r w2 futures Hjob Hrest IH];
    intros i Hi Hdistinct Hget; [by rewrite lookup_nil in Hi|].
  destruct i as [|i]; simpl in Hi.
  - simplify_eq. rewrite (copy_url_refused _ _ _ _ _ _ Hget) in Hjob. simplify_eq.
    rewrite (pool_run_tasks_other _ _ _ _ _ _ Hrest).
    + simpl. apply lookup_delete_eq.
    + intros other (k & Hk)%list_elem_of_lookup. by apply (Hdistinct (S k)).
  - apply (IH i); [done| |done]. intros k other Hk Hne.
    apply (Hdistinct (S k)); [done|lia].
Qed.

(** When the second loop ends well it has logged one line for every
    refused connection, in the order of the futures. *)
Lemma collect_lines futures w :
  (collect futures w).2 = Ok tt →
  (collect futures w).1
  = set_console (λ c, (c ++ map (λ f, failed_line (job_url (future_job f)))
                              (filter is_refusal futures))%list) w.
Proof.
  revert w. induction futures as [|future rest IH]; intros w; simpl.
  - intros _. destruct w. unfold set_console. simpl. by rewrite app_nil_r.
  - destruct (future_result future) as [x|e] eqn:Hres.
    + rewrite filter_cons_False by (unfold is_refusal; rewrite Hres; simpl; tauto).
      apply IH.
    + destruct (decide (e = ConnectionError)) as [->|Hne].
      * rewrite filter_cons_True by (unfold is_refusal; by rewrite Hres).
        unfold bind, Progress.console_log, modify. simpl. intros Hok.
        rewrite (IH _ Hok). destruct w. unfold set_console. simpl.
        by rewrite <- app_assoc.
      * by destruct e.
Qed.

Lemma collect_frame futures w :
  fs (collect futures w).1 = fs w ∧ tasks (collect futures w).1 = tasks w
  ∧ trace (collect futures w).1 = trace w.
Proof.
  revert w. induction futures as [|future rest IH]; intros w; simpl; [done|].
  destruct (future_result future) as [x|e]; [apply IH|].
  destruct e; try done.
  unfold bind, Progress.console_log, modify. simpl.
  destruct (IH (set_console (λ c, (c ++ [failed_line (job_url (future_job future))])%list) w))
    as (? & ? & ?).
  done.
Qed.

Lemma imap_job_of_urls first urls : map job_url (imap (job_of E first) urls) = urls.
Proof.
  revert first. induction urls as [|url rest IH]; intros first; [done|].
  simpl. f_equal. rewrite <- (IH (S first)) at 2. f_equal.
  apply imap_ext. intros i u _. unfold job_of. simpl. f_equal. lia.
Qed.

(** How a run of [download] decomposes. *)
Lemma download_run urls dest w :
  ∃ w1 w2 futures,
    submit_all E urls w = (w1, Ok (imap (job_of E (next_task w)) urls))
    ∧ pool_run E (default "." dest) w1 (imap (job_of E (next_task w)) urls) w2 futures
    ∧ download E urls dest w = collect futures w2.
Proof.
  destruct (submit_all_run E urls w) as (w1 & Hsub & _).
  destruct (run_pool_spec E (default "." dest) (imap (job_of E (next_task w)) urls) w1)
    as (w2 & futures & Hrun & Hpool).
  exists w1, w2, futures. split_and!; [done..|].
  unfold download, bind. by rewrite Hsub, Hrun.
Qed.

(** X16.  The calls of [requests.get] that a run of [download] makes are
    those for an initial part of its list of URLs, one for each and in
    the order of the list, and no other; when the run returns that part
    is the whole list. *)
Theorem download_requests_urls_in_order urls dest w :
  ∃ k, k ≤ length urls
    ∧ requests (trace (download E urls dest w).1)
      = (requests (trace w) ++ take k urls)%list
    ∧ ((download E urls dest w).2 = Ok tt → k = length urls).
Proof.
  exists (length urls). split_and!; [done| |done]. rewrite firstn_all.
  destruct (download_run urls dest w) as (w1 & w2 & futures & Hsub & Hpool & ->).
  destruct (submit_all_run E urls w) as (w1' & Hsub' & _ & _ & _ & Htr & _).
  rewrite Hsub in Hsub'. simplify_eq.
  destruct (collect_frame futures w2) as (_ & _ & ->).
  rewrite (pool_run_requests _ _ _ _ _ Hpool), Htr. by rewrite imap_job_of_urls.
Qed.

(** X17.  When [download] returns, the console holds what it held
    followed by new lines.  Among these there is one failure line for
    every URL of the list whose connection was refused, and every other
    new line is the completion line or the failure line of a URL of the
    list; nothing is said of their order. *)
Theorem download_logs_every_refusal urls dest w :
  (download E urls dest w).2 = Ok tt →
  ∃ lines others,
    console (download E urls dest w).1 = (console w ++ lines)%list
    ∧ lines ≡ₚ (others ++ map failed_line (filter (refused E) urls))%list
    ∧ Forall (λ line, ∃ url, url ∈ urls
                ∧ (is_download_line url line ∨ line = failed_line url)) others.
Proof.
  destruct (download_run urls dest w) as (w1 & w2 & futures & Hsub & Hpool & ->).
  destruct (submit_all_run E urls w) as (w1' & Hsub' & _ & _ & Hc & _).
  rewrite Hsub in Hsub'. simplify_eq. intros Hok.
  rewrite (collect_lines _ _ Hok). simpl.
  destruct (pool_run_console _ _ _ _ _ Hpool) as (logged & Hlog & Hlines).
  exists (logged ++ map failed_line (filter (refused E) urls))%list, logged.
  split_and!; [|done|].
  - rewrite Hlog, Hc, <- app_assoc. do 2 f_equal.
    rewrite <- (imap_job_of_urls (next_task w) urls) at 1.
    rewrite <- (pool_run_refusals _ _ _ _ _ Hpool). by rewrite <- list_fmap_compose.
  - eapply Forall_impl; [exact Hlines|]. intros line (job & Hjob & Hline).
    exists (job_url job). split; [|by left].
    rewrite <- (imap_job_of_urls (next_task w) urls). by apply list_elem_of_fmap_2.
Qed.

(** X18.  The task registered for a URL whose connection is refused, the
    [i]-th handle handed out by the run, is no longer in the sink when
    [download] ends, however it ends. *)
Theorem download_deregisters_refused_tasks urls dest w i url :
  urls !! i = Some url →
  http_get E url = None →
  tasks (download E urls dest w).1 !! (next_task w + i) = None.
Proof.
  intros Hi Hget.
  destruct (download_run urls dest w) as (w1 & w2 & futures & Hsub & Hpool & ->).
  destruct (collect_frame futures w2) as (_ & -> & _).
  apply (pool_run_removed _ _ _ _ _ i (job_of E (next_task w) i url) Hpool).
  - by rewrite list_lookup_imap, Hi.
  - intros j other Hj Hne. rewrite list_lookup_imap in Hj.
    destruct (urls !! j) as [u|]; simpl in Hj; simplify_eq. unfold job_of. simpl. lia.
  - done.
Qed.

End Runs.

(** ** Headers *)

Section Headers.

Variable E : Env.

(** The second loop of [download] ends well only if no future holds
    anything but a refused connection. *)
Lemma collect_returns futures w :
  (collect futures w).2 = Ok tt →
  ∀ f e, f ∈ futures → future_result f = Raise e → e = ConnectionError.
Proof.
  revert w. induction futures as [|g rest IH]; intros w Hcol f e Hf Hres;
    [by apply elem_of_nil in Hf|].
  simpl in Hcol. apply elem_of_cons in Hf as [->|Hf].
  - rewrite Hres in Hcol. by destruct e.
  - destruct (future_result g) as [x|[]]; try done; [by eapply IH|].
    unfold bind, Progress.console_log, modify in Hcol. simpl in Hcol. by eapply IH.
Qed.

(** A URL whose copy raises something else than a refused connection,
    whatever the world, makes the whole [download] raise. *)
Lemma download_reraises urls dest w url e :
  url ∈ urls →
  (∀ tid path d w, (copy_url E tid url path d w).2 = Raise e) →
  e ≠ ConnectionError →
  ∃ e', (download E urls dest w).2 = Raise e' ∧ e' ≠ ConnectionError.
Proof.
  intros Hin Hcopy Hne.
  destruct (download_run E urls dest w) as (w1 & w2 & futures & _ & Hpool & ->).
  destruct (collect futures w2) as [w3 [[]|e']] eqn:Hcol; simpl.
  - exfalso. apply pool_run_jobs in Hpool as Hjobs.
    assert (∃ f, f ∈ futures ∧ job_url (future_job f) = url) as (f & Hf & Hurl).
    { rewrite <- (imap_job_of_urls E (next_task w) urls), <- Hjobs in Hin.
      rewrite <- list_fmap_compose in Hin.
      apply list_elem_of_fmap in Hin as (f & -> & Hf). by exists f. }
    destruct (pool_run_results E _ _ _ _ _ Hpool f Hf) as (w' & Hres).
    rewrite Hurl, Hcopy in Hres.
    pose proof (collect_returns futures w2) as Hok. rewrite Hcol in Hok.
    by specialize (Hok eq_refl f _ Hf Hres).
  - exists e'. split; [done|]. pose proof (collect_raises futures w2 e') as Hraise.
    rewrite Hcol in Hraise. by apply Hraise.
Qed.

(** X6.  A [Content-Disposition] header that is not empty and has no
    [filename] parameter makes [copy_url] raise [KeyError] right after the
    request, and a [download] given such a URL raises instead of
    returning. *)
Theorem missing_filename_parameter_raises tid url path d resp header w :
  http_get E url = Some resp →
  content_disposition resp = Some header →
  Py.truthy header = true →
  Py.dict_get "filename" (value_parser E header) = None →
  copy_url E tid url path d w = (emit (EGet url) w, Raise (KeyError "filename"))
  ∧ (∀ urls dest w0, url ∈ urls →
       ∃ e, (download E urls dest w0).2 = Raise e ∧ e ≠ ConnectionError).
Proof.
  intros Hget Hheader Htruthy Hparams.
  assert (∀ tid path d w,
            copy_url E tid url path d w
            = (emit (EGet url) w, Raise (KeyError "filename"))) as Hcopy.
  { intros. rewrite (copy_url_answered _ _ _ _ _ _ _ Hget).
    unfold copy_response, name_from_headers, filename_from_content_disposition, bind.
    rewrite Hheader. simpl. rewrite Htruthy, Hparams. done. }
  split; [apply Hcopy|]. intros urls dest w0 Hin.
  apply (download_reraises urls dest w0 url (KeyError "filename")); [done| |done].
  intros. by rewrite Hcopy.
Qed.

(** X8.  When neither the header nor the URL gives a name and the
    response has no [Content-Type] header, [copy_url] raises
    [AttributeError] right after the request: no name is made up and no
    file is opened. *)
Theorem missing_content_type_raises tid url path d resp w :
  http_get E url = Some resp →
  Py.truthy_opt (content_disposition resp) = false →
  Py.truthy_opt d = false →
  (Py.truthy_opt (content_length resp) = true →
   is_Some (py_int E (default "" (content_length resp)))) →
  content_type resp = None →
  copy_url E tid url path d w = (emit (EGet url) w, Raise AttributeError).
Proof.
  intros Hget Hdisp Hd Hlen Htype. rewrite (copy_url_answered _ _ _ _ _ _ _ Hget).
  unfold copy_response, name_from_headers, read_content_length,
    name_from_content_type, bind.
  rewrite Hdisp. simpl.
  destruct (Py.truthy_opt (content_length resp)).
  - destruct (Hlen eq_refl) as [n ->]. simpl. by rewrite Hd, Htype.
  - simpl. by rewrite Hd, Htype.
Qed.

(** X7.  A [Content-Length] header that is not empty and is not an
    integer makes [copy_url] raise [ValueError] right after the request,
    before any file is opened. *)
Theorem bad_content_length_raises tid url path d resp text w :
  http_get E url = Some resp →
  Py.truthy_opt (content_disposition resp) = false →
  content_length resp = Some text →
  Py.truthy text = true →
  py_int E text = None →
  copy_url E tid url path d w = (emit (EGet url) w, Raise ValueError).
Proof.
  intros Hget Hdisp Hlen Htext Hint. rewrite (copy_url_answered _ _ _ _ _ _ _ Hget).
  unfold copy_response, name_from_headers, read_content_length, bind.
  rewrite Hdisp, Hlen. simpl. by rewrite Htext, Hint.
Qed.

Lemma name_from_headers_named tid resp d header name w :
  content_disposition resp = Some header → Py.truthy header = true →
  Py.dict_get "filename" (value_parser E header) = Some name →
  name_from_headers E tid resp d w
  = ((Progress.update_filename tid name w).1, Ok (Some name)).
Proof.
  intros Hh Ht Hp.
  unfold name_from_headers, filename_from_content_disposition, bind.
  rewrite Hh. change (default "" (Some header)) with header.
  cbn [Py.truthy_opt]. rewrite Ht, Hp. done.
Qed.

Lemma name_from_headers_absent tid resp d w :
  Py.truthy_opt (content_disposition resp) = false →
  name_from_headers E tid resp d w = (w, Ok d).
Proof. intros H. unfold name_from_headers. by rewrite H. Qed.

Lemma find_next_filename_tasks name g w :
  (find_next_filename E name (set_tasks g w)).2 = (find_next_filename E name w).2.
Proof.
  destruct (Fs.isfile (fs w) name) eqn:Hfile.
  - rewrite !(find_next_filename_taken E) by done.
    change (fs (set_tasks g w)) with (fs w).
    by destruct (first_free (fs w) name (seq 1 999)).
  - by rewrite !(find_next_filename_free_name E).
Qed.

Lemma name_from_content_type_tasks resp o g w :
  (name_from_content_type E resp o (set_tasks g w)).2
  = (name_from_content_type E resp o w).2.
Proof.
  unfold name_from_content_type.
  destruct (negb (Py.truthy_opt o)); [|done].
  destruct (content_type resp) as [h|]; [|done].
  destruct (guess_extension E _); [apply find_next_filename_tasks|done].
Qed.

(** X5.  The order in which a name is chosen.  A non-empty [filename]
    parameter of the [Content-Disposition] header is the name, whatever
    the URL and the content type say.  With an empty [filename] parameter
    the name is made up from the content type, the name from the URL being
    ignored.  Without the header, or with an empty one, a non-empty name
    from the URL is the name and the world is untouched; and with neither,
    the name is made up from the content type. *)
Theorem resolve_filename_priority tid resp d w :
  (∀ header name,
     content_disposition resp = Some header → Py.truthy header = true →
     Py.dict_get "filename" (value_parser E header) = Some name →
     Py.truthy name = true →
     (resolve_filename E tid resp d w).2 = Ok name)
  ∧ (∀ header,
       content_disposition resp = Some header → Py.truthy header = true →
       Py.dict_get "filename" (value_parser E header) = Some "" →
       (resolve_filename E tid resp d w).2
       = (name_from_content_type E resp None w).2)
  ∧ (Py.truthy_opt (content_disposition resp) = false →
     ∀ name, d = Some name → Py.truthy name = true →
     resolve_filename E tid resp d w = (w, Ok name))
  ∧ (Py.truthy_opt (content_disposition resp) = false →
     Py.truthy_opt d = false →
     (resolve_filename E tid resp d w).2 = (name_from_content_type E resp None w).2).
Proof.
  unfold resolve_filename. split_and!.
  - intros header name Hh Ht Hp Hn.
    rewrite (bind_ok _ _ _ _ _ (name_from_headers_named tid resp d header name w Hh Ht Hp)).
    unfold name_from_content_type. cbn [Py.truthy_opt]. by rewrite Hn.
  - intros header Hh Ht Hp.
    rewrite (bind_ok _ _ _ _ _ (name_from_headers_named tid resp d header "" w Hh Ht Hp)).
    unfold Progress.update_filename, modify. cbn [fst].
    rewrite name_from_content_type_tasks.
    unfold name_from_content_type. done.
  - intros Habs name -> Hn.
    rewrite (bind_ok _ _ _ _ _ (name_from_headers_absent tid resp _ w Habs)).
    unfold name_from_content_type. cbn [Py.truthy_opt]. by rewrite Hn.
  - intros Habs Hd.
    rewrite (bind_ok _ _ _ _ _ (name_from_headers_absent tid resp _ w Habs)).
    unfold name_from_content_type. by rewrite Hd.
Qed.

End Headers.

Section Names.

Variable E : Env.



(** X9.  With the working directory as destination, a copy that has no
    [Content-Disposition] header, or an empty one, and no name from the
    URL, and whose name is therefore made up from a content type with a
    known extension, overwrites no existing file, provided that
    [index<ext>] or one of its 999 numbered variants is not a file. *)
Theorem made_up_name_overwrites_nothing tid url d resp header extension w :
  http_get E url = Some resp →
  Py.truthy_opt (content_disposition resp) = false →
  Py.truthy_opt d = false →
  content_type resp = Some header →
  guess_extension E (Py.split_first ";" header) = Some extension →
  (Fs.isfile (fs w) ("index" ++ extension) = false
   ∨ ∃ i, 1 ≤ i ≤ 999
       ∧ Fs.isfile (fs w) (("index" ++ extension) ++ "." ++ Py.str_of_nat i) = false) →
  preserves_files w (copy_url E tid url "." d w).1.
Proof.
  intros Hget Hdisp Hd Htype Hext Hfree.
  destruct (copy_url E tid url "." d w) as [w' r] eqn:Hrun. simpl.
  rewrite (copy_url_answered _ _ _ _ _ _ _ Hget) in Hrun.
  destruct r as [exit|e].
  - apply copy_response_named in Hrun
      as [(e & ? & _)|(w1 & total & name & (_ & _ & _ & _ & Hfs) & Hname & _ & Hsave)]; [done|].
    apply save_response_content in Hsave as (k & _ & Hfile & _).
    unfold resolve_filename in Hname.
    rewrite (bind_ok _ _ _ _ _ (name_from_headers_absent E tid resp d _ Hdisp)) in Hname.
    unfold name_from_content_type in Hname. rewrite Hd, Htype, Hext in Hname.
    cbn [negb] in Hname.
    destruct (find_next_filename_result E ("index" ++ extension) (emit (EGet url) w))
      as (c & w2 & Hrun & _ & (rest & Hc) & _ & Htaken).
    rewrite Hrun in Hname. simplify_eq.
    assert (Fs.joinpath "." (("index" ++ extension) ++ rest)
            = ("index" ++ extension) ++ rest) as Hjoin by done.
    rewrite Hjoin in Hfile.
    assert (Fs.isfile (fs w) (("index" ++ extension) ++ rest) = false) as Hnew.
    { destruct (Fs.isfile (fs w) (("index" ++ extension) ++ rest)) eqn:Hc; [|done].
      destruct (Htaken Hc) as (Hname & Hall & _). destruct Hfree as [?|(i & Hi & Hfree)].
      - simpl in *. congruence.
      - rewrite Forall_forall in Hall. rewrite Hall in Hfree; [done|].
        apply elem_of_seq. lia. }
    intros p data Hp. rewrite Hfile, Hfs. simpl. rewrite lookup_insert_ne; [done|].
    intros <-. unfold Fs.isfile, Fs.lookup_path in Hnew.
    rewrite decide_False in Hnew by done. by rewrite Hp in Hnew.
  - apply copy_response_raises in Hrun as ((_ & _ & _ & _ & Hfs) & _).
    intros p data Hp. by rewrite Hfs.
Qed.

End Names.

(** ** Copies started with the flag set, and runs without any answer *)

Section Flag.

Variable E : Env.



End Flag.

Section Refused.

Variable E : Env.

Lemma pool_run_all_refused dest w jobs w2 futures :
  pool_run E dest w jobs w2 futures →
  (∀ job, job ∈ jobs → http_get E (job_url job) = None) →
  fs w2 = fs w ∧ console w2 = console w
  ∧ Forall (λ f, future_result f = Raise ConnectionError) futures.
Proof.
  induction 1 as [|w job rest w1 r w2 futures Hjob _ IH]; intros Hall; [done|].
  rewrite (copy_url_refused _ _ _ _ _ _ (Hall job ltac:(by left))) in Hjob.
  simplify_eq. destruct IH as (Hfs & Hc & Hfut); [intros j Hj; apply Hall; by right|].
  split_and!; [done..|]. by constructor.
Qed.

Lemma collect_refusals futures w :
  Forall (λ f, future_result f = Raise ConnectionError) futures →
  (collect futures w).2 = Ok tt ∧ filter is_refusal futures = futures.
Proof.
  intros Hall. revert w. induction Hall as [|future rest Hres _ IH]; intros w; [done|].
  simpl. rewrite Hres. unfold bind, Progress.console_log, modify. simpl.
  split; [apply IH|].
  rewrite filter_cons_True by (unfold is_refusal; by rewrite Hres).
  f_equal. apply (IH w).
Qed.

(** X20.  With a valid destination and at least one URL, a run of [main]
    in which every connection is refused touches no file and leaves none
    of the tasks it registers in the sink; and when it returns, the lines
    it added to the console are, in some order, one failure line per
    URL. *)
Theorem run_with_every_connection_refused_touches_no_file dest urls w :
  Fs.is_dir (fs w) (default "." dest) = true →
  urls ≠ [] →
  (∀ url, url ∈ urls → http_get E url = None) →
  fs (main E dest urls w).1 = fs w
  ∧ (∀ i, i < length urls → tasks (main E dest urls w).1 !! (next_task w + i) = None)
  ∧ ((main E dest urls w).2 = Ok tt →
     ∃ lines, console (main E dest urls w).1 = (console w ++ lines)%list
       ∧ lines ≡ₚ map failed_line urls).
Proof.
  intros Hdir Hurls Hall.
  assert (main E dest urls w = download E urls (Some (default "." dest)) w) as ->.
  { unfold main, directory_path, gets, bind. cbn [fst snd].
    assert (Fs.path_exists (fs w) (default "." dest) = true) as ->.
    { unfold Fs.is_dir, Fs.path_exists in *.
      by destruct (Fs.lookup_path (fs w) (default "." dest)). }
    rewrite Hdir. cbn [negb]. unfold ret. by destruct urls. }
  destruct (download_run E urls (Some (default "." dest)) w)
    as (w1 & w2 & futures & Hsub & Hpool & Heq).
  destruct (submit_all_run E urls w) as (w1' & Hsub' & _ & Hfs & Hc & _).
  rewrite Hsub in Hsub'. simplify_eq.
  destruct (pool_run_all_refused _ _ _ _ _ Hpool) as (Hfs2 & Hc2 & Hfut).
  { intros job (k & Hk)%list_elem_of_lookup. rewrite list_lookup_imap in Hk.
    destruct (urls !! k) as [u|] eqn:Hu; simpl in Hk; simplify_eq.
    apply Hall. by eapply list_elem_of_lookup_2. }
  rewrite Heq. destruct (collect_refusals futures w2 Hfut) as (Hok & Hfilter).
  destruct (collect_frame futures w2) as (Hfs3 & Htasks & _).
  split_and!; [congruence| |].
  - intros i Hi. destruct (lookup_lt_is_Some_2 urls i Hi) as [url Hurl].
    rewrite Htasks.
    apply (pool_run_removed _ _ _ _ _ _ i (job_of E (next_task w) i url) Hpool).
    + by rewrite list_lookup_imap, Hurl.
    + intros j other Hj Hne. rewrite list_lookup_imap in Hj.
      destruct (urls !! j) as [u|]; simpl in Hj; simplify_eq. unfold job_of. simpl. lia.
    + apply Hall. by eapply list_elem_of_lookup_2.
  - intros _. exists (map failed_line urls). split; [|done].
    rewrite (collect_lines _ _ Hok), Hfilter. simpl. rewrite Hc2, Hc. f_equal.
    rewrite <- (imap_job_of_urls E (next_task w) urls) at 1.
    rewrite <- (pool_run_jobs _ _ _ _ _ _ Hpool). by rewrite <- !list_fmap_compose.
Qed.

End Refused.

Global Instance same_progress_preorder tid : PreOrder (same_progress tid).
Proof.
  split.
  - intros w t Ht. by exists t.
  - intros w1 w2 w3 H12 H23 t Ht.
    destruct (H12 t Ht) as (t2 & Ht2 & Hc2 & Hs2 & Hn2).
    destruct (H23 t2 Ht2) as (t3 & Ht3 & Hc3 & Hs3 & Hn3).
    exists t3. split_and!; [done|congruence..].
Qed.

(** ** What the sink shows of a cancelled copy *)

Section Accounting.

Variable E : Env.








End Accounting.

(** ** Refused connections and the other downloads *)

(** One step that does the same to the files, the random source and the
    clock in any two worlds that agree on them. *)
Ltac alike_leaf :=
  let w1 := fresh "w" in let w2 := fresh "w" in
  let Hfs := fresh "Hfs" in let Hrng := fresh "Hrng" in let Hnow := fresh "Hnow" in
  intros w1 w2 (Hfs & Hrng & Hnow);
  unfold modify, gets, ret, raise,
    Progress.update_filename, Progress.update_total,
    Progress.update_advance, Progress.start_task, Progress.remove_task,
    Progress.console_log, randomword, open_wb, file_write, done_event_is_set;
  rewrite <- ?Hfs, <- ?Hrng, <- ?Hnow;
  repeat case_match; simplify_eq; unfold same_core; simpl;
  rewrite <- ?Hfs, <- ?Hrng, <- ?Hnow; done.

Ltac alike_go :=
  repeat first
    [ assumption
    | apply alike_ret
    | apply alike_raise
    | apply alike_bind; [ | intros ? ]
    | match goal with
      | |- alike (match ?x with _ => _ end) _ => destruct x
      | |- alike (if ?x then _ else _) _ => destruct x
      end
    | alike_leaf ].

Section Independence.

Variable E : Env.

Lemma alike_find_next_filename name :
  alike (find_next_filename E name) (find_next_filename E name).
Proof.
  intros w1 w2 (Hfs & Hrng & Hnow).
  destruct (Fs.isfile (fs w1) name) eqn:Hfile.
  - rewrite !(find_next_filename_taken E) by congruence. rewrite <- Hfs, <- Hrng.
    destruct (first_free (fs w1) name (seq 1 999)); simpl; [done|].
    split; [|done]. split_and!; simpl; congruence.
  - rewrite !(find_next_filename_free_name E) by congruence. done.
Qed.

Lemma alike_write_chunks tid tid' p chunks :
  alike (write_chunks E tid p chunks) (write_chunks E tid' p chunks).
Proof. induction chunks as [|data rest IH]; simpl; alike_go. Qed.

Lemma alike_copy_response tid tid' url path d resp :
  alike (copy_response E tid url path d resp) (copy_response E tid' url path d resp).
Proof.
  pose proof alike_find_next_filename. 
  assert (∀ p, alike (write_chunks E tid p (iter_content resp))
              (write_chunks E tid' p (iter_content resp))) as Hloop
    by (intros; apply alike_write_chunks).
  unfold copy_response, save_response, name_from_headers,
    filename_from_content_disposition, read_content_length, name_from_content_type.
  alike_go. all: try apply Hloop. all: try apply alike_find_next_filename.
Qed.

Lemma alike_copy_url tid tid' url path d :
  alike (copy_url E tid url path d) (copy_url E tid' url path d).
Proof.
  intros w1 w2 Hw. destruct (http_get E url) as [resp|] eqn:Hget.
  - rewrite !(copy_url_answered _ _ _ _ _ _ _ Hget). by apply alike_copy_response.
  - by rewrite !(copy_url_refused _ _ _ _ _ _ Hget).
Qed.

Lemma imap_job_of_cons first url rest :
  imap (job_of E first) (url :: rest)
  = job_of E first 0 url :: imap (job_of E (S first)) rest.
Proof.
  simpl. f_equal. apply imap_ext. intros i u _. unfold job_of. simpl. f_equal. lia.
Qed.

(** The worker does the same to the files, and leaves the same outcomes
    but for the refused connections, when the URLs that no server
    answers are taken off its list. *)
Lemma run_pool_skips_refused dest urls first first' w v :
  same_core w v →
  ∃ w2 v2 futures futures',
    run_pool E dest (imap (job_of E first) urls) w = (w2, Ok futures)
    ∧ run_pool E dest (imap (job_of E first') (filter (answered E) urls)) v
      = (v2, Ok futures')
    ∧ same_core w2 v2
    ∧ first_error (map future_result futures)
      = first_error (map future_result futures').
Proof.
  revert first first' w v. induction urls as [|url rest IH]; intros first first' w v Hw.
  - exists w, v, [], []. done.
  - rewrite imap_job_of_cons. cbn [run_pool]. unfold bind at 1.
    cbn [job_task job_url job_default job_of].
    destruct (copy_url E (first + 0) url dest
                (Some (Py.split_last "/" (urlparse_path E url))) w)
      as [w1 r1] eqn:Hjob.
    destruct (http_get E url) as [resp|] eqn:Hget.
    + rewrite filter_cons_True by (unfold answered, refused; by rewrite Hget).
      rewrite imap_job_of_cons. cbn [run_pool].
      unfold bind at 2. cbn [job_task job_url job_default job_of].
      destruct (copy_url E (first' + 0) url dest
                  (Some (Py.split_last "/" (urlparse_path E url))) v)
        as [v1 s1] eqn:Hjob'.
      pose proof (alike_copy_url (first + 0) (first' + 0) url dest
                    (Some (Py.split_last "/" (urlparse_path E url))) w v Hw) as [Hc Hr].
      rewrite Hjob, Hjob' in Hc, Hr. simpl in Hc, Hr. subst s1.
      destruct (IH (S first) (S first') w1 v1 Hc)
        as (w2 & v2 & futures & futures' & Hrun & Hrun' & Hcore & Herr).
      unfold bind. rewrite Hrun, Hrun'. do 4 eexists. split_and!; [done..|].
      simpl. by rewrite Herr.
    + rewrite filter_cons_False by (unfold answered, refused; rewrite Hget; simpl; tauto).
      rewrite (copy_url_refused _ _ _ _ _ _ Hget) in Hjob. simplify_eq.
      destruct (IH (S first) first' (set_tasks (delete (first + 0)) (emit (EGet url) w)) v)
        as (w2 & v2 & futures & futures' & Hrun & Hrun' & Hcore & Herr); [done|].
      unfold bind. rewrite Hrun. do 4 eexists. split_and!; [done..|].
      simpl. by rewrite Herr.
Qed.

Lemma collect_first_error futures w :
  (collect futures w).2
  = match first_error (map future_result futures) with
    | Some e => Raise e
    | None => Ok tt
    end.
Proof.
  revert w. induction futures as [|future rest IH]; intros w; [done|].
  simpl. destruct (future_result future) as [x|e]; [apply IH|].
  destruct e; try done. unfold bind, Progress.console_log, modify. simpl. apply IH.
Qed.

(** X19.  The URLs whose connection is refused change nothing for the
    others: when a run of [download] returns, the run on the list without
    those URLs returns too and leaves the same files. *)
Theorem refused_urls_leave_the_other_downloads_alone urls dest w :
  (download E urls dest w).2 = Ok tt →
  (download E (filter (answered E) urls) dest w).2 = Ok tt
  ∧ fs (download E (filter (answered E) urls) dest w).1
    = fs (download E urls dest w).1.
Proof.
  unfold download, bind.
  destruct (submit_all_run E urls w) as (w1 & -> & _ & Hfs & _ & _ & Hrng & Hnow & _).
  destruct (submit_all_run E (filter (answered E) urls) w)
    as (v1 & -> & _ & Hfs' & _ & _ & Hrng' & Hnow' & _).
  destruct (run_pool_skips_refused (default "." dest) urls (next_task w) (next_task w) w1 v1)
    as (w2 & v2 & futures & futures' & -> & -> & (Hcore & _) & Herr).
  { unfold same_core. split_and!; congruence. }
  destruct (collect_frame futures w2) as (-> & _).
  destruct (collect_frame futures' v2) as (-> & _).
  rewrite !collect_first_error, Herr. intros Hok. by split.
Qed.

End Independence.

(** ** The properties on concrete inputs *)

Lemma crowded_numbered i :
  i ∈ seq 1 999 →
  Fs.isfile (crowded "index.txt") ("index.txt" ++ "." ++ Py.str_of_nat i) = true.
Proof.
  unfold Fs.isfile, Fs.lookup_path, crowded.
  rewrite decide_False by (intros H; inversion H).
  generalize (seq 1 999) as range. intros range Hi.
  induction range as [|j range IH]; [by apply elem_of_nil in Hi|].
  cbn [foldr].
  destruct (decide ("index.txt" ++ "." ++ Py.str_of_nat j
                    = "index.txt" ++ "." ++ Py.str_of_nat i)) as [->|Hne].
  - by rewrite lookup_insert_eq.
  - rewrite lookup_insert_ne by done. apply IH.
    apply elem_of_cons in Hi as [->|Hi]; [done|done].
Qed.

Lemma find_next_filename_takes_first_free_number_witness :
  find_next_filename (Sample.env None) "index.txt"
    (Sample.world {[ "index.txt" := File []; "index.txt.1" := File [] ]})
  = (Sample.world {[ "index.txt" := File []; "index.txt.1" := File [] ]},
     Ok ("index.txt" ++ "." ++ Py.str_of_nat 2)).
Proof.
  apply (find_next_filename_takes_first_free_number (Sample.env None) "index.txt" 2).
  - vm_compute. reflexivity.
  - lia.
  - intros j Hj. assert (j = 1) as -> by lia. vm_compute. reflexivity.
  - vm_compute. reflexivity.
Defined.

Lemma find_next_filename_falls_back_to_random_suffix_witness :
  ∃ suffix,
    find_next_filename (Sample.env None) "index.txt" (Sample.world (crowded "index.txt"))
    = (set_rng (rng (Sample.world (crowded "index.txt")) + 16)
         (Sample.world (crowded "index.txt")),
       Ok ("index.txt" ++ "." ++ suffix))
    ∧ String.length suffix = 16
    ∧ lowercase suffix.
Proof.
  apply (find_next_filename_falls_back_to_random_suffix (Sample.env None) "index.txt"
           (Sample.world (crowded "index.txt"))).
  - vm_compute. reflexivity.
  - apply Forall_forall. intros i Hi. by apply crowded_numbered.
Defined.



Lemma download_logs_every_refusal_witness :
  let E := Sample.env None in
  let urls := ["http://example.com/gone"; "http://example.com/a/b/data.csv"] in
  let w := Sample.world ∅ in
  ∃ lines others,
    console (download E urls None w).1 = (console w ++ lines)%list
    ∧ lines ≡ₚ (others ++ map failed_line (filter (refused E) urls))%list
    ∧ Forall (λ line, ∃ url, url ∈ urls
                ∧ (is_download_line url line ∨ line = failed_line url)) others.
Proof.
  intros E urls w. apply (download_logs_every_refusal E urls None w).
  vm_compute. reflexivity.
Defined.

Lemma download_deregisters_refused_tasks_witness :
  tasks (download (Sample.env None)
           ["http://example.com/a/b/data.csv"; "http://example.com/gone"] None
           (Sample.world ∅)).1
    !! (next_task (Sample.world ∅) + 1) = None.
Proof.
  apply (download_deregisters_refused_tasks (Sample.env None)
           ["http://example.com/a/b/data.csv"; "http://example.com/gone"] None
           (Sample.world ∅) 1 "http://example.com/gone"); reflexivity.
Defined.

Lemma missing_filename_parameter_raises_witness :
  let E := Sample.env None in
  let url := "http://example.com/export" in
  copy_url E 0 url "." (Some "export") (Sample.world ∅)
  = (emit (EGet url) (Sample.world ∅), Raise (KeyError "filename"))
  ∧ (∀ urls dest w0, url ∈ urls →
       ∃ e, (download E urls dest w0).2 = Raise e ∧ e ≠ ConnectionError).
Proof.
  intros E url.
  apply (missing_filename_parameter_raises E 0 url "." (Some "export")
           (mkResponse (Some "attachment") None (Some "text/csv") [[x01]])
           "attachment" (Sample.world ∅));
    reflexivity.
Defined.

Lemma missing_content_type_raises_witness :
  let E := Sample.env None in
  let url := "http://example.com/untyped/" in
  copy_url E 0 url "." (Some "") (Sample.world ∅)
  = (emit (EGet url) (Sample.world ∅), Raise AttributeError).
Proof.
  intros E url.
  apply (missing_content_type_raises E 0 url "." (Some "")
           (mkResponse None None None [[x01]]) (Sample.world ∅));
    try reflexivity.
  intros H. discriminate H.
Defined.

Lemma bad_content_length_raises_witness :
  let E := Sample.env_with
             (always (mkResponse None (Some "abc") (Some "text/csv") [[x01]])) None in
  let url := "http://example.com/a/b/data.csv" in
  copy_url E 0 url "." (Some "data.csv") (Sample.world ∅)
  = (emit (EGet url) (Sample.world ∅), Raise ValueError).
Proof.
  intros E url.
  apply (bad_content_length_raises E 0 url "." (Some "data.csv")
           (mkResponse None (Some "abc") (Some "text/csv") [[x01]]) "abc"
           (Sample.world ∅));
    reflexivity.
Defined.


Lemma made_up_name_overwrites_nothing_witness :
  let w := Sample.world {[ "index.txt" := File [x09] ]} in
  preserves_files w
    (copy_url (Sample.env None) 0 "http://example.com/" "." (Some "") w).1.
Proof.
  intros w.
  apply (made_up_name_overwrites_nothing (Sample.env None) 0 "http://example.com/"
           (Some "") (mkResponse None None (Some "text/plain; charset=utf-8") [[x68; x69]])
           "text/plain; charset=utf-8" ".txt" w); try reflexivity.
  right. exists 1. split; [lia|]. vm_compute. reflexivity.
Defined.


Lemma run_with_every_connection_refused_touches_no_file_witness :
  let E := Sample.env None in
  let urls := ["http://example.com/gone"; "http://example.com/lost"] in
  let w := Sample.world ∅ in
  fs (main E None urls w).1 = fs w
  ∧ (∀ i, i < length urls → tasks (main E None urls w).1 !! (next_task w + i) = None)
  ∧ ((main E None urls w).2 = Ok tt →
     ∃ lines, console (main E None urls w).1 = (console w ++ lines)%list
       ∧ lines ≡ₚ map failed_line urls).
Proof.
  intros E urls w.
  apply (run_with_every_connection_refused_touches_no_file E None urls w).
  - reflexivity.
  - discriminate.
  - intros url Hurl. apply elem_of_cons in Hurl as [->|Hurl]; [reflexivity|].
    apply elem_of_cons in Hurl as [->|Hurl]; [reflexivity|].
    by apply elem_of_nil in Hurl.
Defined.


(** ** How a run can end *)

Section Exits.

Variable E : Env.


(** X22.  Without SIGINT no copy ends on the cancellation path: a copy
    that returns has run to the end of the stream. *)
Theorem uninterrupted_copy_is_never_cut_short tid url path d w :
  sigint E = None →
  (copy_url E tid url path d w).2 ≠ Ok Returned.
Proof.
  intros Hs Hret. apply copy_url_returned in Hret as (s & Hs' & _). congruence.
Qed.

End Exits.


Lemma uninterrupted_copy_is_never_cut_short_witness :
  (copy_url (Sample.env None) 0 "http://example.com/a/b/data.csv" "." (Some "data.csv")
     (Sample.world ∅)).2 ≠ Ok Returned.
Proof.
  apply (uninterrupted_copy_is_never_cut_short (Sample.env None)). reflexivity.
Defined.

Lemma refused_urls_leave_the_other_downloads_alone_witness :
  let E := Sample.env None in
  let urls := ["http://example.com/gone"; "http://example.com/a/b/data.csv"] in
  let w := Sample.world ∅ in
  (download E (filter (answered E) urls) None w).2 = Ok tt
  ∧ fs (download E (filter (answered E) urls) None w).1 = fs (download E urls None w).1.
Proof.
  intros E urls w. apply (refused_urls_leave_the_other_downloads_alone E urls None w).
  vm_compute. reflexivity.
Defined.
